(** * SchedulingService: the appointment query flow and its cache

    A shallow embedding of [src/main.py].  The class [SchedulingService]
    drives one Playwright page through the flow

      navigate -> select appointment type -> (set date) -> scrape slots

    and memoises the scraped list in the dictionary [self.state], keyed by
    the tuple [(appointment_type, date_preference)].

    The Playwright page is an external collaborator.  It is modelled as an
    interface [Page W] over an arbitrary world type [W]: every method takes
    the current world, may fail with an exception, and returns the next
    world.  Each coroutine of the class becomes a computation in a small
    monad that threads the service object, propagates exceptions and
    records, in order, every page method called and every log record
    written.  [await] points are sequencing: a single task runs the flow.

    Scope: the methods that run between [initialize_browser] and
    [close_browser]; [self.page] is a live page.  Exceptions are the
    [Exception] subclasses that [except Exception] catches. *)

From Stdlib Require Import Ascii.
From stdpp Require Import gmap strings list fin_maps.

(** ** Data *)

(** The exceptions that travel through the flow: the two Playwright ones a
    page method can raise, and the [ValueError] of the type selection. *)
Inductive exn : Type :=
| PlaywrightError (msg : string)
| PlaywrightTimeoutError (msg : string)
| ValueError (msg : string).

Inductive result (A : Type) : Type :=
| Ok (a : A)
| Raise (e : exn).
Arguments Ok {A} a.
Arguments Raise {A} e.

(** [{'date': date_text, 'time': time_text}] *)
Record Slot : Type := mkSlot { date : string; time : string }.

(** An element handle returned by [query_selector_all]. *)
Definition ElementHandle : Type := nat.

(** The key of [self.state]: a tuple of the appointment type and of the date
    preference, which is [None] or a string. *)
Definition CacheKey : Type := (string * option string)%type.

(** [cache_key = (appointment_type, date_preference)] *)
Definition cache_key (appointment_type : string) (date_preference : option string)
  : CacheKey := (appointment_type, date_preference).

(** Log records, kept structured: the template and the values formatted
    into it. *)
Inductive level : Type := INFO | ERROR.

Inductive message : Type :=
| MsgNavigating (url : string)
| MsgPageLoaded
| MsgErrorNavigating (e : exn)
| MsgSelectingType (appointment_type : string)
| MsgTypeSelected (appointment_type : string)
| MsgErrorSelectingType (e : exn)
| MsgSelectingDate (date_preference : option string)
| MsgDateSelected (date_preference : option string)
| MsgErrorSelectingDate (e : exn)
| MsgCheckingSlots
| MsgSlotsFound (available_slots : list Slot)
| MsgErrorCheckingSlots (e : exn)
| MsgUsingCached (appointment_type : string) (date_preference : option string).

(** What a computation does that is visible from outside: a log record, or
    a call of a page method (recorded when the call is made, whether it
    then succeeds or raises). *)
Inductive event : Type :=
| Log (l : level) (m : message)
| Goto (url : string)
| WaitForLoadState (st : string)
| Click (selector : string)
| Screenshot (path : string)
| WaitForSelector (selector : string) (timeout : Z)
| QuerySelectorAll (selector : string)
| InnerText (slot : ElementHandle)
| LocatorInnerText (selector : string).

(** The methods of Playwright's page that the class uses. *)
Record Page (W : Type) : Type := mkPage {
  goto : string → W → result unit * W;
  wait_for_load_state : string → W → result unit * W;
  click : string → W → result unit * W;
  screenshot : string → W → result unit * W;
  wait_for_selector : string → Z → W → result unit * W;
  query_selector_all : string → W → result (list ElementHandle) * W;
  inner_text : ElementHandle → W → result string * W;
  locator_inner_text : string → W → result string * W
}.
Arguments goto {W} _ _ _.
Arguments wait_for_load_state {W} _ _ _.
Arguments click {W} _ _ _.
Arguments screenshot {W} _ _ _.
Arguments wait_for_selector {W} _ _ _ _.
Arguments query_selector_all {W} _ _ _.
Arguments inner_text {W} _ _ _.
Arguments locator_inner_text {W} _ _ _.

(** The service object: [self.url], the world behind [self.page], and the
    dictionary [self.state]. *)
Record SchedulingService (W : Type) : Type := mkService {
  url : string;
  page : W;
  state : gmap (string * option string) (list Slot)
}.
Arguments mkService {W} _ _ _.
Arguments url {W} _.
Arguments page {W} _.
Arguments state {W} _.

(** [SchedulingService(url)]: [self.state = {}]. *)
Definition init {W : Type} (u : string) (w : W) : SchedulingService W :=
  mkService u w ∅.

(** ** The monad of the coroutines *)

Record outcome (W A : Type) : Type := Out {
  res : result A;
  final : SchedulingService W;
  emitted : list event
}.
Arguments Out {W A} _ _ _.
Arguments res {W A} _.
Arguments final {W A} _.
Arguments emitted {W A} _.

Definition M (W A : Type) : Type := SchedulingService W → outcome W A.

Definition ret {W A} (a : A) : M W A := λ s, Out (Ok a) s [].

Definition raise {W A} (e : exn) : M W A := λ s, Out (Raise e) s [].

Definition bind {W A B} (m : M W A) (k : A → M W B) : M W B :=
  λ s,
    match m s with
    | Out (Ok a) s1 evs1 =>
        let o := k a s1 in
        Out (res o) (final o) (evs1 ++ emitted o)
    | Out (Raise e) s1 evs1 => Out (Raise e) s1 evs1
    end.

(** [try: body  except Exception as e: handler e]; an exception raised by
    the handler itself propagates. *)
Definition try_except {W A} (body : M W A) (handler : exn → M W A) : M W A :=
  λ s,
    match body s with
    | Out (Ok a) s1 evs1 => Out (Ok a) s1 evs1
    | Out (Raise e) s1 evs1 =>
        let o := handler e s1 in
        Out (res o) (final o) (evs1 ++ emitted o)
    end.

Declare Scope svc_scope.
Delimit Scope svc_scope with svc.
Notation "x <- m ;; k" := (bind m (λ x, k))
  (at level 100, m at next level, right associativity) : svc_scope.
Notation "m ;; k" := (bind m (λ _, k))
  (at level 100, right associativity) : svc_scope.
Open Scope svc_scope.

Definition logger {W} (l : level) (m : message) : M W unit :=
  λ s, Out (Ok tt) s [Log l m].

(** A call of a page method: the event, then the method on the world. *)
Definition call {W A} (e : event) (op : W → result A * W) : M W A :=
  λ s, Out (fst (op (page s))) (mkService (url s) (snd (op (page s))) (state s)) [e].

Definition get_url {W} : M W string := λ s, Out (Ok (url s)) s [].

Definition get_state {W} : M W (gmap (string * option string) (list Slot)) :=
  λ s, Out (Ok (state s)) s [].

(** [self.state[cache_key] = available_slots] *)
Definition set_item {W} (cache_key : CacheKey) (available_slots : list Slot) : M W unit :=
  λ s, Out (Ok tt) (mkService (url s) (page s) (<[cache_key := available_slots]> (state s))) [].

(** ** Strings of the source *)

Definition dquote : string := String "034"%char EmptyString.

(** The selector [text="..."] of the clicks. *)
Definition text_selector (t : string) : string :=
  "text=" +:+ dquote +:+ t +:+ dquote.

(** Truth value of [date_preference] in [if date_preference:]. *)
Definition truthy (date_preference : option string) : bool :=
  match date_preference with
  | None => false
  | Some EmptyString => false
  | Some (String _ _) => true
  end.

(** [f"{date_preference}"] *)
Definition format (date_preference : option string) : string :=
  match date_preference with
  | None => "None"
  | Some d => d
  end.

(** ** The methods *)

Section Methods.
Context {W : Type} (P : Page W).

Definition page_goto (u : string) : M W unit := call (Goto u) (goto P u).

Definition page_wait_for_load_state (st : string) : M W unit :=
  call (WaitForLoadState st) (wait_for_load_state P st).

Definition page_click (sel : string) : M W unit := call (Click sel) (click P sel).

Definition page_screenshot (path : string) : M W unit :=
  call (Screenshot path) (screenshot P path).

Definition page_wait_for_selector (sel : string) (timeout : Z) : M W unit :=
  call (WaitForSelector sel timeout) (wait_for_selector P sel timeout).

Definition page_query_selector_all (sel : string) : M W (list ElementHandle) :=
  call (QuerySelectorAll sel) (query_selector_all P sel).

Definition slot_inner_text (slot : ElementHandle) : M W string :=
  call (InnerText slot) (inner_text P slot).

Definition page_locator_inner_text (sel : string) : M W string :=
  call (LocatorInnerText sel) (locator_inner_text P sel).

(** The [except Exception as e:] suite that the four methods share, up to
    the text of the log record:
    [logger.error(...); await self.page.screenshot(path=...); raise]. *)
Definition on_error {A} (msg : exn → message) (e : exn) : M W A :=
  logger ERROR (msg e);;
  page_screenshot "error_screenshot.png";;
  raise e.

(** The [try:] suite of [navigate_to_scheduling_page]. *)
Definition navigate_try (u : string) : M W unit :=
  page_goto u;;
  page_wait_for_load_state "networkidle";;
  logger INFO MsgPageLoaded.

Definition navigate_to_scheduling_page : M W unit :=
  u <- get_url;;
  logger INFO (MsgNavigating u);;
  try_except (navigate_try u) (on_error MsgErrorNavigating).

(** The [try:] suite of [select_appointment_type_direct_click]. *)
Definition select_try (appointment_type : string) : M W unit :=
  (if decide (appointment_type = "New appointment") then
     page_click (text_selector "New appointment")
   else if decide (appointment_type = "Emergency appointment") then
     page_click (text_selector "Emergency appointment")
   else if decide (appointment_type = "Invisalign consultation") then
     page_click (text_selector "Invisalign consultation")
   else
     raise (ValueError ("Unknown appointment type: " +:+ appointment_type)));;
  logger INFO (MsgTypeSelected appointment_type).

Definition select_appointment_type_direct_click (appointment_type : string) : M W unit :=
  logger INFO (MsgSelectingType appointment_type);;
  try_except (select_try appointment_type) (on_error MsgErrorSelectingType).

(** The [try:] suite of [set_date_preference]. *)
Definition date_try (date_preference : option string) : M W unit :=
  page_click (text_selector (format date_preference));;
  logger INFO (MsgDateSelected date_preference).

Definition set_date_preference (date_preference : option string) : M W unit :=
  if truthy date_preference then
    logger INFO (MsgSelectingDate date_preference);;
    try_except (date_try date_preference) (on_error MsgErrorSelectingDate)
  else ret tt.

(** [for slot in slots: ...], with the list [available_slots] built so far. *)
Fixpoint for_slot (slots : list ElementHandle) (available_slots : list Slot)
  : M W (list Slot) :=
  match slots with
  | [] => ret available_slots
  | slot :: rest =>
      time_text <- slot_inner_text slot;;
      date_text <- page_locator_inner_text ".selected-date";;
      for_slot rest (available_slots ++ [mkSlot date_text time_text])
  end.

(** The [try:] suite of [get_available_slots]. *)
Definition slots_try : M W (list Slot) :=
  page_wait_for_selector ".time-slot" 10000;;
  slots <- page_query_selector_all ".time-slot";;
  available_slots <- for_slot (take 5 slots) [];;
  logger INFO (MsgSlotsFound available_slots);;
  ret available_slots.

Definition get_available_slots : M W (list Slot) :=
  logger INFO MsgCheckingSlots;;
  try_except slots_try (on_error MsgErrorCheckingSlots).

Definition check_available_appointments
    (appointment_type : string) (date_preference : option string)
  : M W (list Slot) :=
  st <- get_state;;
  match st !! cache_key appointment_type date_preference with
  | Some cached =>
      logger INFO (MsgUsingCached appointment_type date_preference);;
      ret cached
  | None =>
      navigate_to_scheduling_page;;
      select_appointment_type_direct_click appointment_type;;
      (if truthy date_preference then set_date_preference date_preference
       else ret tt);;
      available_slots <- get_available_slots;;
      set_item (cache_key appointment_type date_preference) available_slots;;
      ret available_slots
  end.

End Methods.

(** ** Reading a trace *)

Definition is_page_call (e : event) : bool :=
  match e with
  | Log _ _ => false
  | _ => true
  end.

(** The page methods called, in order, without the log records. *)
Definition page_calls (evs : list event) : list event :=
  filter (λ e, is_page_call e = true) evs.

Definition is_goto (e : event) : bool :=
  match e with Goto _ => true | _ => false end.

Definition is_click (e : event) : bool :=
  match e with Click _ => true | _ => false end.

Definition is_screenshot (e : event) : bool :=
  match e with Screenshot _ => true | _ => false end.

Definition is_query (e : event) : bool :=
  match e with QuerySelectorAll _ => true | _ => false end.

Definition is_label_read (e : event) : bool :=
  match e with LocatorInnerText _ => true | _ => false end.

Definition count (f : event → bool) (evs : list event) : nat :=
  length (filter (λ e, f e = true) evs).

(** A computation keeps the service's own fields: it may move the page, but
    neither [self.url] nor [self.state] changes. *)
Definition keeps {W A} (m : M W A) : Prop :=
  ∀ s, url (final (m s)) = url s ∧ state (final (m s)) = state s.

(** Every event that a computation emits satisfies [Q]. *)
Definition emits {W A} (Q : event → Prop) (m : M W A) : Prop :=
  ∀ s, Forall Q (emitted (m s)).

(** The page methods that the loop of [get_available_slots] calls for the
    handles [slots]. *)
Definition loop_calls (slots : list ElementHandle) : list event :=
  flat_map (λ slot, [InnerText slot; LocatorInnerText ".selected-date"]) slots.

(** The slot [sl] is what one iteration of the loop reads for the handle
    [slot] in some world: its time is the text of the handle, and its date is
    the text of the date label read right after. *)
Definition read_as {W} (P : Page W) (slot : ElementHandle) (sl : Slot) : Prop :=
  ∃ w,
    fst (inner_text P slot w) = Ok (time sl)
    ∧ fst (locator_inner_text P ".selected-date" (snd (inner_text P slot w)))
      = Ok (date sl).

(** The [try] suite [body] raises [e0] from some service state and leaves the
    page in the world [w]. *)
Definition failed_in {W A} (body : M W A) (e0 : exn) (w : W) : Prop :=
  ∃ s0, res (body s0) = Raise e0 ∧ w = page (final (body s0)).

(** A page that answers every call of the flow and keeps showing the same
    slots: the handles [slots] with the texts [texts], under the date label
    [label]. *)
Definition shows {W} (P : Page W) (slots : list ElementHandle) (texts : list string)
    (label : string) : Prop :=
  (∀ u w, fst (goto P u w) = Ok tt)
  ∧ (∀ st w, fst (wait_for_load_state P st w) = Ok tt)
  ∧ (∀ sel w, fst (click P sel w) = Ok tt)
  ∧ (∀ w, fst (wait_for_selector P ".time-slot" 10000 w) = Ok tt)
  ∧ (∀ w, fst (query_selector_all P ".time-slot" w) = Ok slots)
  ∧ Forall2 (λ slot t, ∀ w, fst (inner_text P slot w) = Ok t) slots texts
  ∧ (∀ w, fst (locator_inner_text P ".selected-date" w) = Ok label).

(** The appointment types that [select_appointment_type_direct_click]
    compares with. *)
Definition recognized (appointment_type : string) : Prop :=
  appointment_type = "New appointment"
  ∨ appointment_type = "Emergency appointment"
  ∨ appointment_type = "Invisalign consultation".

(** ** A simulated page

    A small family of concrete pages to run the methods on.  The site
    description says which page methods fail and what the page shows; the
    world is the number of times the date label has been read, so that a
    page whose label changes while it is scraped can be described. *)

Module Sim.

Record Site : Type := mkSite {
  goto_error : option exn;
  screenshot_error : option exn;
  wait_error : option exn;
  slot_texts : list string;
  labels : list string
}.

Definition may_fail (err : option exn) : result unit :=
  match err with
  | Some e => Raise e
  | None => Ok tt
  end.

(** The label shown at the [n]-th read: the [n]-th of [labels], and the last
    one from then on. *)
Definition label_at (c : Site) (n : nat) : result string :=
  match labels c !! n with
  | Some d => Ok d
  | None =>
      match last (labels c) with
      | Some d => Ok d
      | None => Raise (PlaywrightTimeoutError "Timeout 30000ms exceeded.")
      end
  end.

Definition sim_page (c : Site) : Page nat := {|
  goto := λ _ w, (may_fail (goto_error c), w);
  wait_for_load_state := λ _ w, (Ok tt, w);
  click := λ _ w, (Ok tt, w);
  screenshot := λ _ w, (may_fail (screenshot_error c), w);
  wait_for_selector := λ _ _ w, (may_fail (wait_error c), w);
  query_selector_all := λ sel w,
    (Ok (if decide (sel = ".time-slot") then seq 0 (length (slot_texts c)) else []), w);
  inner_text := λ slot w,
    (match slot_texts c !! slot with
     | Some t => Ok t
     | None => Raise (PlaywrightError "Element is not attached to the DOM")
     end, w);
  locator_inner_text := λ _ w, (label_at c w, S w)
|}.

Definition site_url : string := "https://care.425dental.com/schedule-appointments/".

(** Three slots on October 10. *)
Definition example_site : Site :=
  mkSite None None None ["9:00 AM"; "9:30 AM"; "10:00 AM"] ["Oct 10, 2025"].

(** Seven slots. *)
Definition busy_site : Site :=
  mkSite None None None
    ["8:00 AM"; "8:30 AM"; "9:00 AM"; "9:30 AM"; "10:00 AM"; "10:30 AM"; "11:00 AM"]
    ["Oct 10, 2025"].

(** The wait succeeds, the query finds nothing. *)
Definition empty_site : Site := mkSite None None None [] ["Oct 10, 2025"].

(** Navigation fails. *)
Definition offline_site : Site :=
  mkSite (Some (PlaywrightError "net::ERR_INTERNET_DISCONNECTED")) None None [] [].

(** Navigation fails, and so does the screenshot. *)
Definition crashed_site : Site :=
  mkSite (Some (PlaywrightError "net::ERR_INTERNET_DISCONNECTED"))
         (Some (PlaywrightError "Target page, context or browser has been closed"))
         None [] [].

(** The date label changes between two reads. *)
Definition ticking_site : Site :=
  mkSite None None None ["11:30 PM"; "11:45 PM"] ["Oct 10, 2025"; "Oct 11, 2025"].

Definition fresh : SchedulingService nat := init site_url 0%nat.

End Sim.

(** ** The browser's life cycle

    [__init__], [initialize_browser], [close_browser] and [main].  The
    handles [self.playwright], [self.browser], [self.context] and
    [self.page] point into the world; what the object itself remembers of
    the life cycle is the flag [self.closed]. *)

(** The screenshots of a trace. *)
Definition screenshots (evs : list event) : list event :=
  filter (λ e, is_screenshot e = true) evs.

(** The dictionary holds only what the flow can have put there: lists of at
    most five slots, under recognized appointment types. *)
Definition cache_ok (st : gmap (string * option string) (list Slot)) : Prop :=
  ∀ t d cached, st !! cache_key t d = Some cached →
    recognized t ∧ (length cached ≤ 5)%nat.

(** The calls that start and release the browser. *)
Record Driver (W : Type) : Type := mkDriver {
  start : W → result unit * W;
  launch : bool → W → result unit * W;
  new_context : W → result unit * W;
  new_page : W → result unit * W;
  page_close : W → result unit * W;
  context_close : W → result unit * W;
  browser_close : W → result unit * W;
  stop : W → result unit * W
}.
Arguments start {W} _ _.
Arguments launch {W} _ _ _.
Arguments new_context {W} _ _.
Arguments new_page {W} _ _.
Arguments page_close {W} _ _.
Arguments context_close {W} _ _.
Arguments browser_close {W} _ _.
Arguments stop {W} _ _.

(** The object with its flag: the fields of the flow, and [self.closed]. *)
Record Client (W : Type) : Type := mkClient {
  service : SchedulingService W;
  closed : bool
}.
Arguments mkClient {W} _ _.
Arguments service {W} _.
Arguments closed {W} _.

(** [SchedulingService(url)]: [self.closed = True], [self.state = {}]. *)
Definition new_client {W : Type} (u : string) (w : W) : Client W :=
  mkClient (init u w) true.

Inductive life_message : Type :=
| MsgInitializing
| MsgInitialized
| MsgClosing
| MsgClosed
| MsgAvailableSlots (available_slots : list Slot).

(** The events of a run: those of the flow, the log records of the life
    cycle, and the calls of the driver. *)
Inductive life_event : Type :=
| Flow (e : event)
| LifeLog (l : level) (m : life_message)
| Start
| Launch (headless : bool)
| NewContext
| NewPage
| PageClose
| ContextClose
| BrowserClose
| Stop.

Definition is_driver_call (e : life_event) : bool :=
  match e with
  | Flow _ | LifeLog _ _ => false
  | _ => true
  end.

(** The driver methods called, in order. *)
Definition driver_calls (evs : list life_event) : list life_event :=
  filter (λ e, is_driver_call e = true) evs.

Record life_outcome (W A : Type) : Type := LifeOut {
  life_res : result A;
  life_final : Client W;
  life_emitted : list life_event
}.
Arguments LifeOut {W A} _ _ _.
Arguments life_res {W A} _.
Arguments life_final {W A} _.
Arguments life_emitted {W A} _.

Definition L (W A : Type) : Type := Client W → life_outcome W A.

Definition life_ret {W A} (a : A) : L W A := λ x, LifeOut (Ok a) x [].

Definition life_bind {W A B} (m : L W A) (k : A → L W B) : L W B :=
  λ x,
    match m x with
    | LifeOut (Ok a) x1 evs1 =>
        let o := k a x1 in
        LifeOut (life_res o) (life_final o) (evs1 ++ life_emitted o)
    | LifeOut (Raise e) x1 evs1 => LifeOut (Raise e) x1 evs1
    end.

(** [try: body  finally: cleanup].  The cleanup always runs; an exception of
    the cleanup propagates in place of the outcome of the body. *)
Definition try_finally {W A} (body : L W A) (cleanup : L W unit) : L W A :=
  λ x,
    match body x with
    | LifeOut r x1 evs1 =>
        match cleanup x1 with
        | LifeOut (Ok _) x2 evs2 => LifeOut r x2 (evs1 ++ evs2)
        | LifeOut (Raise e) x2 evs2 => LifeOut (Raise e) x2 (evs1 ++ evs2)
        end
    end.

(** A coroutine of the flow, called on the object. *)
Definition lift {W A} (m : M W A) : L W A :=
  λ x,
    let o := m (service x) in
    LifeOut (res o) (mkClient (final o) (closed x)) (map Flow (emitted o)).

Definition life_logger {W} (l : level) (m : life_message) : L W unit :=
  λ x, LifeOut (Ok tt) x [LifeLog l m].

(** A call of a driver method: the event, then the method on the world. *)
Definition drive {W} (e : life_event) (op : W → result unit * W) : L W unit :=
  λ x,
    let s := service x in
    LifeOut (fst (op (page s)))
            (mkClient (mkService (url s) (snd (op (page s))) (state s)) (closed x))
            [e].

Definition get_closed {W} : L W bool := λ x, LifeOut (Ok (closed x)) x [].

(** [self.closed = b] *)
Definition set_closed {W} (b : bool) : L W unit :=
  λ x, LifeOut (Ok tt) (mkClient (service x) b) [].

Declare Scope life_scope.
Delimit Scope life_scope with life.
Notation "x <- m ;; k" := (life_bind m (λ x, k))
  (at level 100, m at next level, right associativity) : life_scope.
Notation "m ;; k" := (life_bind m (λ _, k))
  (at level 100, right associativity) : life_scope.

Section LifeCycle.
Context {W : Type} (P : Page W) (D : Driver W).
Local Open Scope life_scope.

Definition initialize_browser (headless : bool) : L W unit :=
  life_logger INFO MsgInitializing;;
  drive Start (start D);;
  drive (Launch headless) (launch D headless);;
  drive NewContext (new_context D);;
  drive NewPage (new_page D);;
  set_closed false;;
  life_logger INFO MsgInitialized.

Definition close_browser : L W unit :=
  life_logger INFO MsgClosing;;
  is_closed <- get_closed;;
  if negb is_closed then
    drive PageClose (page_close D);;
    drive ContextClose (context_close D);;
    drive BrowserClose (browser_close D);;
    drive Stop (stop D);;
    set_closed true;;
    life_logger INFO MsgClosed
  else life_ret tt.

(** The address that [main] queries. *)
Definition main_url : string :=
  "https://care.425dental.com/schedule-appointments/?_gl=11eu87tj_gcl_auMTY4NjUyNjY2NC4xNzI2MjUyODIw_gaNzc0MzUzODQ3LjE3MjYyNTI4MjA._ga_P7N65JEY18*MTcyNjg2NDgzMi41LjEuMTcyNjg2NDkwMi4wLjAuMA..".

(** The [try:] suite of [main]. *)
Definition main_try : L W unit :=
  initialize_browser true;;
  available_slots <- lift (check_available_appointments P "New appointment" None);;
  life_logger INFO (MsgAvailableSlots available_slots).

(** [main()], started in the world [w]. *)
Definition main (w : W) : life_outcome W unit :=
  try_finally main_try close_browser (new_client main_url w).

End LifeCycle.

(** A simulated driver: which of its calls fail. *)
Module SimDriver.

Record Faults : Type := mkFaults {
  launch_error : option exn;
  page_close_error : option exn
}.

Definition sim_driver (f : Faults) : Driver nat := {|
  start := λ w, (Ok tt, w);
  launch := λ _ w, (Sim.may_fail (launch_error f), w);
  new_context := λ w, (Ok tt, w);
  new_page := λ w, (Ok tt, w);
  page_close := λ w, (Sim.may_fail (page_close_error f), w);
  context_close := λ w, (Ok tt, w);
  browser_close := λ w, (Ok tt, w);
  stop := λ w, (Ok tt, w)
|}.

Definition sound : Faults := mkFaults None None.

(** The slots never appear: the wait for the selector times out. *)
Definition slow_site : Sim.Site :=
  Sim.mkSite None None (Some (PlaywrightTimeoutError "Timeout 10000ms exceeded."))
    [] ["Oct 10, 2025"].

(** One slot, and no date label on the page. *)
Definition unlabelled_site : Sim.Site := Sim.mkSite None None None ["9:00 AM"] [].


(** An object whose browser is open. *)
Definition open_client : Client nat := mkClient Sim.fresh false.

(** No browser can be launched. *)
Definition no_browser : Faults :=
  mkFaults (Some (PlaywrightError "Executable doesn't exist")) None.

(** The page cannot be closed. *)
Definition stuck_page : Faults :=
  mkFaults None (Some (PlaywrightError "Target page, context or browser has been closed")).

End SimDriver.

(** ** Running the monad *)

Section Run.
Context {W : Type}.

Lemma bind_ok {A B} (m : M W A) (k : A → M W B) s a :
  res (m s) = Ok a →
  bind m k s = Out (res (k a (final (m s)))) (final (k a (final (m s))))
                   (emitted (m s) ++ emitted (k a (final (m s)))).
Proof. unfold bind. destruct (m s) as [[?|?] ? ?]; simpl; congruence. Qed.

Lemma bind_raise {A B} (m : M W A) (k : A → M W B) s e :
  res (m s) = Raise e →
  bind m k s = Out (Raise e) (final (m s)) (emitted (m s)).
Proof. unfold bind. destruct (m s) as [[?|?] ? ?]; simpl; congruence. Qed.

Lemma try_ok {A} (body : M W A) (handler : exn → M W A) s a :
  res (body s) = Ok a → try_except body handler s = body s.
Proof. unfold try_except. destruct (body s) as [[?|?] ? ?]; simpl; congruence. Qed.

Lemma try_raise {A} (body : M W A) (handler : exn → M W A) s e :
  res (body s) = Raise e →
  try_except body handler s =
    Out (res (handler e (final (body s)))) (final (handler e (final (body s))))
        (emitted (body s) ++ emitted (handler e (final (body s)))).
Proof. unfold try_except. destruct (body s) as [[?|?] ? ?]; simpl; congruence. Qed.

Lemma keeps_ret {A} (a : A) : keeps (ret (W:=W) a).
Proof. now intros s. Qed.

Lemma keeps_raise {A} e : keeps (raise (W:=W) (A:=A) e).
Proof. now intros s. Qed.

Lemma keeps_logger l msg : keeps (logger (W:=W) l msg).
Proof. now intros s. Qed.

Lemma keeps_call {A} ev (op : W → result A * W) : keeps (call ev op).
Proof. now intros s. Qed.

Lemma keeps_get_url : keeps (get_url (W:=W)).
Proof. now intros s. Qed.

Lemma keeps_get_state : keeps (get_state (W:=W)).
Proof. now intros s. Qed.

Lemma keeps_bind {A B} (m : M W A) (k : A → M W B) :
  keeps m → (∀ a, keeps (k a)) → keeps (bind m k).
Proof.
  intros Hm Hk s. destruct (res (m s)) as [a|e] eqn:E.
  - rewrite (bind_ok _ _ _ _ E). simpl.
    destruct (Hk a (final (m s))) as [-> ->]. apply Hm.
  - rewrite (bind_raise _ _ _ _ E). apply Hm.
Qed.

Lemma keeps_try {A} (body : M W A) (handler : exn → M W A) :
  keeps body → (∀ e, keeps (handler e)) → keeps (try_except body handler).
Proof.
  intros Hb Hh s. destruct (res (body s)) as [a|e] eqn:E.
  - rewrite (try_ok _ _ _ _ E). apply Hb.
  - rewrite (try_raise _ _ _ _ E). simpl.
    destruct (Hh e (final (body s))) as [-> ->]. apply Hb.
Qed.

Lemma keeps_if {A} (b : bool) (m1 m2 : M W A) :
  keeps m1 → keeps m2 → keeps (if b then m1 else m2).
Proof. now destruct b. Qed.

Lemma keeps_decide {A} (Q : Prop) `{Decision Q} (m1 m2 : M W A) :
  keeps m1 → keeps m2 → keeps (if decide Q then m1 else m2).
Proof. now destruct (decide Q). Qed.

Lemma emits_ret {A} Q (a : A) : emits Q (ret (W:=W) a).
Proof. intros s. constructor. Qed.

Lemma emits_raise {A} Q e : emits Q (raise (W:=W) (A:=A) e).
Proof. intros s. constructor. Qed.

Lemma emits_logger (Q : event → Prop) l msg :
  Q (Log l msg) → emits Q (logger (W:=W) l msg).
Proof. intros HQ s. simpl. now repeat constructor. Qed.

Lemma emits_call {A} (Q : event → Prop) ev (op : W → result A * W) :
  Q ev → emits Q (call ev op).
Proof. intros HQ s. simpl. now repeat constructor. Qed.

Lemma emits_get_url Q : emits Q (get_url (W:=W)).
Proof. intros s. constructor. Qed.

Lemma emits_bind {A B} Q (m : M W A) (k : A → M W B) :
  emits Q m → (∀ a, emits Q (k a)) → emits Q (bind m k).
Proof.
  intros Hm Hk s. destruct (res (m s)) as [a|e] eqn:E.
  - rewrite (bind_ok _ _ _ _ E). simpl.
    apply Forall_app. split; [apply Hm | apply Hk].
  - rewrite (bind_raise _ _ _ _ E). apply Hm.
Qed.

Lemma emits_try {A} Q (body : M W A) (handler : exn → M W A) :
  emits Q body → (∀ e, emits Q (handler e)) → emits Q (try_except body handler).
Proof.
  intros Hb Hh s. destruct (res (body s)) as [a|e] eqn:E.
  - rewrite (try_ok _ _ _ _ E). apply Hb.
  - rewrite (try_raise _ _ _ _ E). simpl.
    apply Forall_app. split; [apply Hb | apply Hh].
Qed.

Lemma emits_if {A} Q (b : bool) (m1 m2 : M W A) :
  emits Q m1 → emits Q m2 → emits Q (if b then m1 else m2).
Proof. now destruct b. Qed.

Lemma emits_decide {A} Q (R : Prop) `{Decision R} (m1 m2 : M W A) :
  emits Q m1 → emits Q m2 → emits Q (if decide R then m1 else m2).
Proof. now destruct (decide R). Qed.

Lemma count_zero (f : event → bool) evs :
  Forall (λ e, f e = false) evs → count f evs = 0%nat.
Proof.
  unfold count. induction 1 as [|e evs He _ IH]; [reflexivity|].
  rewrite filter_cons_False; [exact IH | congruence].
Qed.

Lemma page_calls_cons e evs :
  page_calls (e :: evs) = if is_page_call e then e :: page_calls evs else page_calls evs.
Proof.
  unfold page_calls. rewrite filter_cons.
  destruct (is_page_call e); case_decide; congruence.
Qed.

Lemma page_calls_app evs1 evs2 :
  page_calls (evs1 ++ evs2) = page_calls evs1 ++ page_calls evs2.
Proof. apply filter_app. Qed.

Lemma page_calls_loop slots : page_calls (loop_calls slots) = loop_calls slots.
Proof.
  unfold loop_calls. induction slots as [|h rest IH]; [reflexivity|].
  simpl. rewrite !page_calls_cons. simpl. now rewrite IH.
Qed.

Lemma count_cons (f : event → bool) e evs :
  count f (e :: evs) = ((if f e then 1 else 0) + count f evs)%nat.
Proof.
  unfold count. rewrite filter_cons.
  destruct (f e); case_decide; simpl; congruence.
Qed.

Lemma count_app (f : event → bool) evs1 evs2 :
  count f (evs1 ++ evs2) = (count f evs1 + count f evs2)%nat.
Proof. unfold count. now rewrite filter_app, length_app. Qed.

End Run.

Create HintDb svc.
#[export] Hint Resolve keeps_ret keeps_raise keeps_logger keeps_call keeps_get_url
  keeps_get_state keeps_bind keeps_try keeps_if keeps_decide : svc.
#[export] Hint Resolve emits_ret emits_raise emits_logger emits_call emits_get_url
  emits_bind emits_try emits_if emits_decide : svc.

Ltac bind_cases E :=
  match goal with
  | |- context [bind ?m ?k ?s] =>
      destruct (res (m s)) eqn:E;
      [ rewrite (bind_ok m k s _ E) in *
      | rewrite (bind_raise m k s _ E) in * ];
      cbn [res final emitted] in *
  end.

Ltac bind_all E :=
  match goal with
  | |- context [bind ?m _ ?s] =>
      destruct (res (m s)) eqn:E;
      [ rewrite !(bind_ok m _ s _ E)
      | rewrite !(bind_raise m _ s _ E) ];
      cbn [res final emitted]
  end.

(** ** The methods, step by step *)

Section Steps.
Context {W : Type} (P : Page W).

Lemma keeps_on_error {A} msg e : keeps (on_error P (A:=A) msg e).
Proof. unfold on_error, page_screenshot. auto 10 with svc. Qed.

Lemma keeps_navigate : keeps (navigate_to_scheduling_page P).
Proof.
  unfold navigate_to_scheduling_page, navigate_try, page_goto,
    page_wait_for_load_state.
  auto 15 using @keeps_on_error with svc.
Qed.

Lemma keeps_select t : keeps (select_appointment_type_direct_click P t).
Proof.
  unfold select_appointment_type_direct_click, select_try, page_click.
  auto 15 using @keeps_on_error with svc.
Qed.

Lemma keeps_set_date d : keeps (set_date_preference P d).
Proof.
  unfold set_date_preference, date_try, page_click.
  auto 15 using @keeps_on_error with svc.
Qed.

Lemma keeps_for_slot slots acc : keeps (for_slot P slots acc).
Proof.
  revert acc. induction slots as [|h rest IH]; intros acc; simpl.
  - auto with svc.
  - unfold slot_inner_text, page_locator_inner_text. auto 10 with svc.
Qed.

Lemma keeps_slots_try : keeps (slots_try P).
Proof.
  unfold slots_try, page_wait_for_selector, page_query_selector_all.
  auto 15 using keeps_for_slot with svc.
Qed.

Lemma keeps_get_slots : keeps (get_available_slots P).
Proof.
  unfold get_available_slots.
  auto 15 using keeps_slots_try, @keeps_on_error with svc.
Qed.

(** What the shared handler does once the [try] suite has raised [e0]. *)
Lemma try_on_error {A} (body : M W A) msg s e0 :
  res (body s) = Raise e0 →
  try_except body (on_error P msg) s =
    Out (match fst (screenshot P "error_screenshot.png" (page (final (body s)))) with
         | Ok _ => Raise e0
         | Raise e' => Raise e'
         end)
        (mkService (url (final (body s)))
                   (snd (screenshot P "error_screenshot.png" (page (final (body s)))))
                   (state (final (body s))))
        (emitted (body s) ++ [Log ERROR (msg e0); Screenshot "error_screenshot.png"]).
Proof.
  intros E. rewrite (try_raise _ _ _ _ E).
  unfold on_error, page_screenshot, bind, call, logger, raise. simpl.
  destruct (fst (screenshot P "error_screenshot.png" (page (final (body s)))));
    reflexivity.
Qed.

(** The cache hit and the cache miss of [check_available_appointments]. *)
Lemma check_hit t d s cached :
  state s !! cache_key t d = Some cached →
  check_available_appointments P t d s =
    Out (Ok cached) s [Log INFO (MsgUsingCached t d)].
Proof.
  intros E. unfold check_available_appointments, bind at 1. simpl.
  rewrite E. reflexivity.
Qed.

(** A page call followed by the rest of the suite. *)
Lemma bind_call {A B} ev (op : W → result A * W) (k : A → M W B) s :
  bind (call ev op) k s =
    match fst (op (page s)) with
    | Ok a =>
        let o := k a (mkService (url s) (snd (op (page s))) (state s)) in
        Out (res o) (final o) (ev :: emitted o)
    | Raise e => Out (Raise e) (mkService (url s) (snd (op (page s))) (state s)) [ev]
    end.
Proof. unfold bind, call. destruct (fst (op (page s))); reflexivity. Qed.

Lemma check_miss t d s :
  state s !! cache_key t d = None →
  check_available_appointments P t d s =
    (navigate_to_scheduling_page P;;
     select_appointment_type_direct_click P t;;
     (if truthy d then set_date_preference P d else ret tt);;
     available_slots <- get_available_slots P;;
     set_item (cache_key t d) available_slots;;
     ret available_slots) s.
Proof.
  intros E. unfold check_available_appointments, bind at 1. simpl.
  rewrite E. simpl.
  match goal with |- Out (res ?o) _ _ = _ => now destruct o end.
Qed.

Lemma bind_emitted_prefix {A B} (m : M W A) (k : A → M W B) s :
  ∃ rest, emitted (bind m k s) = emitted (m s) ++ rest.
Proof.
  destruct (res (m s)) as [a|e] eqn:E.
  - rewrite (bind_ok _ _ _ _ E). simpl. eauto.
  - rewrite (bind_raise _ _ _ _ E). simpl. exists []. now rewrite app_nil_r.
Qed.

Lemma navigate_try_starts u s :
  ∃ rest, emitted (navigate_try P u s) = Goto u :: rest.
Proof.
  unfold navigate_try.
  destruct (bind_emitted_prefix (page_goto P u)
              (λ _, page_wait_for_load_state P "networkidle";; logger INFO MsgPageLoaded) s)
    as [rest ->].
  simpl. eauto.
Qed.

Lemma navigate_starts s :
  ∃ rest, emitted (navigate_to_scheduling_page P s) =
          Log INFO (MsgNavigating (url s)) :: Goto (url s) :: rest.
Proof.
  unfold navigate_to_scheduling_page.
  rewrite (bind_ok get_url _ s (url s)) by reflexivity. simpl.
  destruct (navigate_try_starts (url s) s) as [rest Hrest].
  destruct (res (navigate_try P (url s) s)) eqn:E.
  - rewrite (try_ok _ _ _ _ E), Hrest. eauto.
  - rewrite (try_raise _ _ _ _ E). simpl. rewrite Hrest. simpl. eauto.
Qed.

Lemma check_miss_starts t d s :
  state s !! cache_key t d = None →
  ∃ rest, emitted (check_available_appointments P t d s) =
          Log INFO (MsgNavigating (url s)) :: Goto (url s) :: rest.
Proof.
  intros K. rewrite (check_miss _ _ _ K).
  destruct (bind_emitted_prefix (navigate_to_scheduling_page P)
    (λ _, select_appointment_type_direct_click P t;;
          (if truthy d then set_date_preference P d else ret tt);;
          available_slots <- get_available_slots P;;
          set_item (cache_key t d) available_slots;;
          ret available_slots) s) as [rest ->].
  destruct (navigate_starts s) as [rest' ->]. simpl. eauto.
Qed.

Ltac page_cases :=
  repeat match goal with
    | |- context [match fst ?x with Ok _ => _ | Raise _ => _ end] =>
        destruct (fst x) eqn:?; simpl
    end.

Lemma navigate_ok_trace s :
  res (navigate_to_scheduling_page P s) = Ok tt →
  emitted (navigate_to_scheduling_page P s) =
    [Log INFO (MsgNavigating (url s)); Goto (url s);
     WaitForLoadState "networkidle"; Log INFO MsgPageLoaded].
Proof.
  unfold navigate_to_scheduling_page, navigate_try, on_error, page_goto,
    page_wait_for_load_state, page_screenshot.
  unfold bind, try_except, call, logger, get_url, raise. simpl.
  page_cases; intros; try discriminate; reflexivity.
Qed.

Lemma select_ok_trace t s :
  res (select_appointment_type_direct_click P t s) = Ok tt →
  recognized t
  ∧ emitted (select_appointment_type_direct_click P t s) =
      [Log INFO (MsgSelectingType t); Click (text_selector t);
       Log INFO (MsgTypeSelected t)].
Proof.
  unfold select_appointment_type_direct_click, select_try, on_error, page_click,
    page_screenshot, recognized.
  repeat case_decide; subst;
    unfold bind, try_except, call, logger, raise; simpl;
    page_cases; intros; try discriminate; auto.
Qed.

(** An unrecognized type: the [else] branch raises inside the [try] suite, so
    the handler runs. *)
Lemma select_unknown t s :
  ¬ recognized t →
  select_appointment_type_direct_click P t s =
    Out (match fst (screenshot P "error_screenshot.png" (page s)) with
         | Ok _ => Raise (ValueError ("Unknown appointment type: " +:+ t))
         | Raise e' => Raise e'
         end)
        (mkService (url s) (snd (screenshot P "error_screenshot.png" (page s))) (state s))
        [Log INFO (MsgSelectingType t);
         Log ERROR (MsgErrorSelectingType (ValueError ("Unknown appointment type: " +:+ t)));
         Screenshot "error_screenshot.png"].
Proof.
  intros Hn.
  unfold select_appointment_type_direct_click, select_try, on_error, page_click,
    page_screenshot.
  repeat case_decide; subst; try (exfalso; apply Hn; unfold recognized; tauto).
  unfold bind, try_except, call, logger, raise; simpl.
  page_cases; reflexivity.
Qed.

Lemma set_date_falsy d s :
  truthy d = false → set_date_preference P d s = Out (Ok tt) s [].
Proof. intros E. unfold set_date_preference. now rewrite E. Qed.

Lemma set_date_ok_trace d s :
  truthy d = true →
  res (set_date_preference P d s) = Ok tt →
  emitted (set_date_preference P d s) =
    [Log INFO (MsgSelectingDate d); Click (text_selector (format d));
     Log INFO (MsgDateSelected d)].
Proof.
  intros E. unfold set_date_preference, date_try, on_error, page_click, page_screenshot.
  rewrite E.
  unfold bind, try_except, call, logger, raise; simpl.
  page_cases; intros; try discriminate; reflexivity.
Qed.

(** One iteration of the loop. *)
Lemma for_slot_cons h rest acc s :
  for_slot P (h :: rest) acc s =
    let r1 := inner_text P h (page s) in
    match fst r1 with
    | Raise e => Out (Raise e) (mkService (url s) (snd r1) (state s)) [InnerText h]
    | Ok time_text =>
        let r2 := locator_inner_text P ".selected-date" (snd r1) in
        match fst r2 with
        | Raise e =>
            Out (Raise e) (mkService (url s) (snd r2) (state s))
                [InnerText h; LocatorInnerText ".selected-date"]
        | Ok date_text =>
            let o := for_slot P rest (acc ++ [mkSlot date_text time_text])
                       (mkService (url s) (snd r2) (state s)) in
            Out (res o) (final o)
                (InnerText h :: LocatorInnerText ".selected-date" :: emitted o)
        end
    end.
Proof.
  simpl. unfold slot_inner_text, page_locator_inner_text, bind, call. simpl.
  destruct (fst (inner_text P h (page s))); simpl; [|reflexivity].
  destruct (fst (locator_inner_text P ".selected-date" (snd (inner_text P h (page s)))));
    reflexivity.
Qed.

(** The loop: when it completes, it has added one slot per handle, in the
    order of the handles; the time of a slot is the text read from its
    handle and its date is a text read from the date label at that
    iteration. *)
Lemma for_slot_ok slots acc s r :
  res (for_slot P slots acc s) = Ok r →
  ∃ new,
    r = acc ++ new
    ∧ emitted (for_slot P slots acc s) = loop_calls slots
    ∧ Forall2 (λ slot sl, read_as P slot sl) slots new.
Proof.
  revert acc s r. induction slots as [|h rest IH]; intros acc s r.
  - simpl. intros [= <-]. exists []. rewrite app_nil_r. repeat split. constructor.
  - rewrite for_slot_cons. cbv zeta.
    destruct (fst (inner_text P h (page s))) as [time_text|e] eqn:E1;
      [|discriminate].
    destruct (fst (locator_inner_text P ".selected-date" (snd (inner_text P h (page s)))))
      as [date_text|e] eqn:E2; [|discriminate].
    cbn [res emitted]. intros H. apply IH in H as (new & -> & -> & HF).
    exists (mkSlot date_text time_text :: new).
    rewrite <- app_assoc. repeat split.
    constructor; [|exact HF]. exists (page s). simpl. auto.
Qed.


(** The [try] suite of [get_available_slots], call by call. *)
Lemma slots_try_run s :
  slots_try P s =
    let r1 := wait_for_selector P ".time-slot" 10000 (page s) in
    match fst r1 with
    | Raise e =>
        Out (Raise e) (mkService (url s) (snd r1) (state s))
            [WaitForSelector ".time-slot" 10000]
    | Ok _ =>
        let r2 := query_selector_all P ".time-slot" (snd r1) in
        match fst r2 with
        | Raise e =>
            Out (Raise e) (mkService (url s) (snd r2) (state s))
                [WaitForSelector ".time-slot" 10000; QuerySelectorAll ".time-slot"]
        | Ok slots =>
            let o := for_slot P (take 5 slots) [] (mkService (url s) (snd r2) (state s)) in
            match res o with
            | Raise e =>
                Out (Raise e) (final o)
                    (WaitForSelector ".time-slot" 10000 :: QuerySelectorAll ".time-slot"
                       :: emitted o)
            | Ok available_slots =>
                Out (Ok available_slots) (final o)
                    (WaitForSelector ".time-slot" 10000 :: QuerySelectorAll ".time-slot"
                       :: emitted o ++ [Log INFO (MsgSlotsFound available_slots)])
            end
        end
    end.
Proof.
  unfold slots_try, page_wait_for_selector, page_query_selector_all.
  rewrite bind_call. cbv beta zeta.
  destruct (fst (wait_for_selector P ".time-slot" 10000 (page s))); [|reflexivity].
  rewrite bind_call. cbv beta zeta.
  destruct (fst (query_selector_all P ".time-slot" _)) as [slots|e]; [|reflexivity].
  unfold bind.
  destruct (for_slot P (take 5 slots) [] _) as [[sl|e] s' evs]; reflexivity.
Qed.

Lemma get_slots_run s :
  get_available_slots P s =
    let o := try_except (slots_try P) (on_error P MsgErrorCheckingSlots) s in
    Out (res o) (final o) (Log INFO MsgCheckingSlots :: emitted o).
Proof. reflexivity. Qed.

(** A successful scrape, read backwards: the wait and the query succeeded,
    the loop ran over the first five handles, and these are all the events. *)
Lemma get_slots_ok_inv s available_slots :
  res (get_available_slots P s) = Ok available_slots →
  ∃ slots,
    let r1 := wait_for_selector P ".time-slot" 10000 (page s) in
    let r2 := query_selector_all P ".time-slot" (snd r1) in
    fst r1 = Ok tt
    ∧ fst r2 = Ok slots
    ∧ res (for_slot P (take 5 slots) [] (mkService (url s) (snd r2) (state s)))
      = Ok available_slots
    ∧ emitted (get_available_slots P s) =
        [Log INFO MsgCheckingSlots; WaitForSelector ".time-slot" 10000;
         QuerySelectorAll ".time-slot"]
        ++ loop_calls (take 5 slots) ++ [Log INFO (MsgSlotsFound available_slots)].
Proof.
  rewrite get_slots_run. cbv zeta. cbn [res emitted].
  destruct (res (slots_try P s)) as [sl|e] eqn:E.
  - rewrite (try_ok _ _ _ _ E). rewrite E. intros [= ->].
    revert E. rewrite slots_try_run. cbv zeta.
    destruct (fst (wait_for_selector P ".time-slot" 10000 (page s))) as [[]|e] eqn:E1;
      [|discriminate].
    destruct (fst (query_selector_all P ".time-slot" _)) as [slots|e] eqn:E2;
      [|discriminate].
    destruct (res (for_slot P (take 5 slots) [] _)) as [sl|e] eqn:E3; [|discriminate].
    cbn [res emitted]. intros [= ->]. exists slots.
    destruct (for_slot_ok _ _ _ _ E3) as (new & _ & -> & _).
    repeat split; assumption.
  - rewrite (try_on_error _ _ _ _ E). cbn [res].
    destruct (fst (screenshot P _ _)); discriminate.
Qed.

(** A successful scrape, read forwards. *)
Lemma get_slots_ok_intro s slots available_slots :
  let r1 := wait_for_selector P ".time-slot" 10000 (page s) in
  let r2 := query_selector_all P ".time-slot" (snd r1) in
  fst r1 = Ok tt →
  fst r2 = Ok slots →
  res (for_slot P (take 5 slots) [] (mkService (url s) (snd r2) (state s)))
    = Ok available_slots →
  res (get_available_slots P s) = Ok available_slots
  ∧ emitted (get_available_slots P s) =
      [Log INFO MsgCheckingSlots; WaitForSelector ".time-slot" 10000;
       QuerySelectorAll ".time-slot"]
      ++ loop_calls (take 5 slots) ++ [Log INFO (MsgSlotsFound available_slots)].
Proof.
  intros r1 r2 E1 E2 E3. subst r1 r2.
  assert (slots_try P s =
    Out (Ok available_slots)
        (final (for_slot P (take 5 slots) []
           (mkService (url s)
              (snd (query_selector_all P ".time-slot"
                 (snd (wait_for_selector P ".time-slot" 10000 (page s))))) (state s))))
        (WaitForSelector ".time-slot" 10000 :: QuerySelectorAll ".time-slot"
           :: loop_calls (take 5 slots) ++ [Log INFO (MsgSlotsFound available_slots)]))
    as Hrun.
  { rewrite slots_try_run. cbv zeta. rewrite E1, E2, E3.
    destruct (for_slot_ok _ _ _ _ E3) as (new & _ & -> & _). reflexivity. }
  rewrite get_slots_run. cbv zeta.
  rewrite (try_ok _ _ s available_slots) by now rewrite Hrun.
  rewrite Hrun. split; reflexivity.
Qed.

(** Which kinds of events each method can emit. *)
Lemma navigate_emits (Q : event → Prop) :
  (∀ l m, Q (Log l m)) → (∀ u, Q (Goto u)) → (∀ st, Q (WaitForLoadState st)) →
  (∀ path, Q (Screenshot path)) →
  emits Q (navigate_to_scheduling_page P).
Proof.
  intros. unfold navigate_to_scheduling_page, navigate_try, on_error, page_goto,
    page_wait_for_load_state, page_screenshot.
  auto 15 with svc.
Qed.

Lemma select_emits (Q : event → Prop) t :
  (∀ l m, Q (Log l m)) → (∀ sel, Q (Click sel)) → (∀ path, Q (Screenshot path)) →
  emits Q (select_appointment_type_direct_click P t).
Proof.
  intros. unfold select_appointment_type_direct_click, select_try, on_error,
    page_click, page_screenshot.
  auto 15 with svc.
Qed.

Lemma set_date_emits (Q : event → Prop) d :
  (∀ l m, Q (Log l m)) → (∀ sel, Q (Click sel)) → (∀ path, Q (Screenshot path)) →
  emits Q (if truthy d then set_date_preference P d else ret tt).
Proof.
  intros. unfold set_date_preference, date_try, on_error, page_click, page_screenshot.
  auto 15 with svc.
Qed.

Lemma for_slot_emits (Q : event → Prop) slots acc :
  (∀ h, Q (InnerText h)) → (∀ sel, Q (LocatorInnerText sel)) →
  emits Q (for_slot P slots acc).
Proof.
  intros H1 H2. revert acc. induction slots as [|h rest IH]; intros acc; simpl.
  - auto with svc.
  - unfold slot_inner_text, page_locator_inner_text. auto 10 with svc.
Qed.

Lemma get_slots_emits (Q : event → Prop) :
  (∀ l m, Q (Log l m)) → (∀ sel n, Q (WaitForSelector sel n)) →
  (∀ sel, Q (QuerySelectorAll sel)) → (∀ h, Q (InnerText h)) →
  (∀ sel, Q (LocatorInnerText sel)) → (∀ path, Q (Screenshot path)) →
  emits Q (get_available_slots P).
Proof.
  intros. unfold get_available_slots, slots_try, on_error, page_wait_for_selector,
    page_query_selector_all, page_screenshot.
  auto 20 using for_slot_emits with svc.
Qed.

(** A successful miss, read backwards: the four steps succeeded one after the
    other, the list returned is the one scraped, and it is stored under the
    key. *)
Lemma check_miss_ok_inv t d s available_slots :
  state s !! cache_key t d = None →
  res (check_available_appointments P t d s) = Ok available_slots →
  let o1 := navigate_to_scheduling_page P s in
  let o2 := select_appointment_type_direct_click P t (final o1) in
  let o3 := (if truthy d then set_date_preference P d else ret tt) (final o2) in
  let o4 := get_available_slots P (final o3) in
  res o1 = Ok tt ∧ res o2 = Ok tt ∧ res o3 = Ok tt ∧ res o4 = Ok available_slots
  ∧ final (check_available_appointments P t d s) =
      mkService (url (final o4)) (page (final o4))
                (<[cache_key t d := available_slots]> (state (final o4)))
  ∧ emitted (check_available_appointments P t d s) =
      emitted o1 ++ emitted o2 ++ emitted o3 ++ emitted o4.
Proof.
  intros K. rewrite (check_miss _ _ _ K). cbv zeta.
  bind_cases E1; [|discriminate].
  bind_cases E2; [|discriminate].
  bind_cases E3; [|discriminate].
  bind_cases E4; [|discriminate].
  simpl. intros [= <-].
  destruct a, a0, a1. rewrite !app_nil_r. repeat split; reflexivity.
Qed.

(** A successful miss, read forwards. *)
Lemma check_miss_ok_intro t d s available_slots :
  state s !! cache_key t d = None →
  let o1 := navigate_to_scheduling_page P s in
  let o2 := select_appointment_type_direct_click P t (final o1) in
  let o3 := (if truthy d then set_date_preference P d else ret tt) (final o2) in
  let o4 := get_available_slots P (final o3) in
  res o1 = Ok tt → res o2 = Ok tt → res o3 = Ok tt → res o4 = Ok available_slots →
  res (check_available_appointments P t d s) = Ok available_slots.
Proof.
  intros K o1 o2 o3 o4 E1 E2 E3 E4. subst o1 o2 o3 o4.
  rewrite (check_miss _ _ _ K).
  rewrite (bind_ok _ _ _ _ E1). cbn [res final emitted].
  rewrite (bind_ok _ _ _ _ E2). cbn [res final emitted].
  rewrite (bind_ok _ _ _ _ E3). cbn [res final emitted].
  rewrite (bind_ok _ _ _ _ E4). reflexivity.
Qed.

Lemma count_loop_calls (f : event → bool) slots :
  (∀ h, f (InnerText h) = false) → (∀ sel, f (LocatorInnerText sel) = false) →
  count f (loop_calls slots) = 0%nat.
Proof.
  intros H1 H2. apply count_zero. unfold loop_calls.
  induction slots as [|h rest IH]; simpl; repeat constructor; auto.
Qed.

(** The handler, read backwards: a guarded suite raises only after its body
    has raised and the screenshot has been attempted. *)
Lemma guarded_raise_inv {A} (body : M W A) msg s e :
  res (try_except body (on_error P msg) s) = Raise e →
  ∃ e0,
    res (body s) = Raise e0
    ∧ emitted (try_except body (on_error P msg) s) =
        emitted (body s) ++ [Log ERROR (msg e0); Screenshot "error_screenshot.png"]
    ∧ page (final (try_except body (on_error P msg) s)) =
        snd (screenshot P "error_screenshot.png" (page (final (body s))))
    ∧ match fst (screenshot P "error_screenshot.png" (page (final (body s)))) with
      | Ok _ => e = e0
      | Raise e' => e = e'
      end.
Proof.
  destruct (res (body s)) as [a|e0] eqn:E.
  - rewrite (try_ok _ _ _ _ E), E. discriminate.
  - rewrite (try_on_error _ _ _ _ E). cbn [res final emitted page].
    intros H. exists e0. repeat split.
    destruct (fst (screenshot P _ _)); congruence.
Qed.

Lemma navigate_run s :
  navigate_to_scheduling_page P s =
    let o := try_except (navigate_try P (url s)) (on_error P MsgErrorNavigating) s in
    Out (res o) (final o) (Log INFO (MsgNavigating (url s)) :: emitted o).
Proof. reflexivity. Qed.

Lemma select_run t s :
  select_appointment_type_direct_click P t s =
    let o := try_except (select_try P t) (on_error P MsgErrorSelectingType) s in
    Out (res o) (final o) (Log INFO (MsgSelectingType t) :: emitted o).
Proof. reflexivity. Qed.

Lemma set_date_run d s :
  truthy d = true →
  set_date_preference P d s =
    let o := try_except (date_try P d) (on_error P MsgErrorSelectingDate) s in
    Out (res o) (final o) (Log INFO (MsgSelectingDate d) :: emitted o).
Proof. intros E. unfold set_date_preference. rewrite E. reflexivity. Qed.

(** A method made of one log record and a guarded suite: what its failure
    looks like from outside. *)
Lemma step_report {A} (body : M W A) msg (m : M W A) l s e :
  m s = (let o := try_except body (on_error P msg) s in
         Out (res o) (final o) (l :: emitted o)) →
  res (m s) = Raise e →
  ∃ e0,
    failed_in body e0 (page (final (body s)))
    ∧ emitted (m s) =
        (l :: emitted (body s)) ++ [Log ERROR (msg e0); Screenshot "error_screenshot.png"]
    ∧ page (final (m s)) =
        snd (screenshot P "error_screenshot.png" (page (final (body s))))
    ∧ match fst (screenshot P "error_screenshot.png" (page (final (body s)))) with
      | Ok _ => e = e0
      | Raise e' => e = e'
      end.
Proof.
  intros -> H. cbv zeta in *. cbn [res final emitted] in *.
  apply guarded_raise_inv in H as (e0 & Eb & -> & -> & Hm).
  exists e0. repeat split; [exists s; auto | exact Hm].
Qed.

(** On a miss, the call is the four steps, then the store. *)
Lemma check_miss_split t d s :
  state s !! cache_key t d = None →
  let o := (navigate_to_scheduling_page P;;
            select_appointment_type_direct_click P t;;
            (if truthy d then set_date_preference P d else ret tt);;
            get_available_slots P) s in
  let o' := check_available_appointments P t d s in
  res o' = res o ∧ emitted o' = emitted o ∧ page (final o') = page (final o)
  ∧ url (final o') = url (final o)
  ∧ state (final o') = match res o with
                       | Ok available_slots =>
                           <[cache_key t d := available_slots]> (state (final o))
                       | Raise _ => state (final o)
                       end.
Proof.
  intros K. rewrite (check_miss _ _ _ K). cbv zeta.
  bind_all E1; [|auto].
  bind_all E2; [|auto].
  bind_all E3; [|auto].
  bind_all E4; [|auto].
  simpl. rewrite !app_nil_r. auto.
Qed.

(** The steps, read forwards. *)
Lemma navigate_ok_intro s :
  fst (goto P (url s) (page s)) = Ok tt →
  fst (wait_for_load_state P "networkidle" (snd (goto P (url s) (page s)))) = Ok tt →
  res (navigate_to_scheduling_page P s) = Ok tt.
Proof.
  intros E1 E2. rewrite navigate_run. cbv zeta. cbn [res].
  assert (res (navigate_try P (url s) s) = Ok tt) as E.
  { unfold navigate_try, page_goto, page_wait_for_load_state.
    rewrite bind_call, E1. cbv zeta. cbn [res]. rewrite bind_call. cbn [url page state].
    now rewrite E2. }
  now rewrite (try_ok _ _ _ _ E).
Qed.

Lemma select_ok_intro t s :
  recognized t →
  fst (click P (text_selector t) (page s)) = Ok tt →
  res (select_appointment_type_direct_click P t s) = Ok tt.
Proof.
  intros Ht E1. rewrite select_run. cbv zeta. cbn [res].
  assert (res (select_try P t s) = Ok tt) as E.
  { unfold select_try, page_click.
    destruct Ht as [-> | [-> | ->]]; repeat case_decide; try congruence;
      rewrite bind_call, E1; reflexivity. }
  now rewrite (try_ok _ _ _ _ E).
Qed.

Lemma set_date_ok_intro d s :
  (truthy d = true → fst (click P (text_selector (format d)) (page s)) = Ok tt) →
  res ((if truthy d then set_date_preference P d else ret tt) s) = Ok tt.
Proof.
  intros E1. destruct (truthy d) eqn:Td; [|reflexivity].
  rewrite (set_date_run _ _ Td). cbv zeta. cbn [res].
  assert (res (date_try P d s) = Ok tt) as E.
  { unfold date_try, page_click. rewrite bind_call, E1; reflexivity. }
  now rewrite (try_ok _ _ _ _ E).
Qed.

Lemma for_slot_shows slots texts label acc s :
  Forall2 (λ slot t, ∀ w, fst (inner_text P slot w) = Ok t) slots texts →
  (∀ w, fst (locator_inner_text P ".selected-date" w) = Ok label) →
  res (for_slot P slots acc s) = Ok (acc ++ map (mkSlot label) texts).
Proof.
  intros HF Hl. revert acc s.
  induction HF as [|h t rest texts Hh _ IH]; intros acc s.
  - simpl. now rewrite app_nil_r.
  - rewrite for_slot_cons. cbv zeta. rewrite Hh, Hl. cbn [res].
    rewrite IH, <- app_assoc. reflexivity.
Qed.

(** On such a page a miss for a recognized type succeeds, with the first
    five texts under the label. *)
Lemma check_shows slots texts label t d s :
  shows P slots texts label →
  recognized t →
  state s !! cache_key t d = None →
  res (check_available_appointments P t d s) = Ok (map (mkSlot label) (take 5 texts)).
Proof.
  intros (Hg & Hw & Hc & Hs & Hq & Ht & Hl) Hrec K.
  apply (check_miss_ok_intro _ _ _ _ K).
  - apply navigate_ok_intro; auto.
  - apply select_ok_intro; auto.
  - apply set_date_ok_intro; auto.
  - apply (get_slots_ok_intro _ slots); auto.
    rewrite (for_slot_shows (take 5 slots) (take 5 texts) label); auto.
    now apply Forall2_take.
Qed.

Lemma count_label_reads slots :
  count is_label_read (loop_calls slots) = length slots.
Proof.
  unfold count, loop_calls. induction slots as [|h rest IH]; [reflexivity|].
  simpl. f_equal. exact IH.
Qed.

(** What a successful call leaves in the dictionary: the list returned,
    under the key of the call, and every other entry as it was. *)
Lemma check_ok_stores t d s available_slots :
  res (check_available_appointments P t d s) = Ok available_slots →
  let s1 := final (check_available_appointments P t d s) in
  url s1 = url s
  ∧ state s1 !! cache_key t d = Some available_slots
  ∧ ∀ k, k ≠ cache_key t d → state s1 !! k = state s !! k.
Proof.
  intros H s1. subst s1.
  destruct (state s !! cache_key t d) as [cached|] eqn:K.
  - rewrite (check_hit _ _ _ _ K) in *. simpl in *.
    repeat split; congruence.
  - destruct (check_miss_ok_inv _ _ _ _ K H) as (_ & _ & _ & _ & -> & _).
    cbn [url state page].
    destruct (keeps_navigate s) as [U1 S1].
    destruct (keeps_select t (final (navigate_to_scheduling_page P s))) as [U2 S2].
    destruct (keeps_if (truthy d) _ _ (keeps_set_date d) (keeps_ret tt)
                (final (select_appointment_type_direct_click P t
                   (final (navigate_to_scheduling_page P s))))) as [U3 S3].
    destruct (keeps_get_slots
                (final ((if truthy d then set_date_preference P d else ret tt)
                   (final (select_appointment_type_direct_click P t
                      (final (navigate_to_scheduling_page P s))))))) as [U4 S4].
    rewrite U4, U3, U2, U1, S4, S3, S2, S1.
    split; [reflexivity|]. split; [apply lookup_insert_eq|].
    intros k Hk. now rewrite lookup_insert_ne by congruence.
Qed.

(** The page calls of a miss that succeeds, with the handles that the query
    of the scrape returned. *)
Lemma miss_ok_page_calls t d s available_slots :
  state s !! cache_key t d = None →
  res (check_available_appointments P t d s) = Ok available_slots →
  let s3 := final ((if truthy d then set_date_preference P d else ret tt)
                     (final (select_appointment_type_direct_click P t
                        (final (navigate_to_scheduling_page P s))))) in
  let r1 := wait_for_selector P ".time-slot" 10000 (page s3) in
  let r2 := query_selector_all P ".time-slot" (snd r1) in
  recognized t
  ∧ ∃ slots,
      fst r2 = Ok slots
      ∧ page_calls (emitted (check_available_appointments P t d s)) =
          [Goto (url s); WaitForLoadState "networkidle"; Click (text_selector t)]
          ++ (if truthy d then [Click (text_selector (format d))] else [])
          ++ WaitForSelector ".time-slot" 10000 :: QuerySelectorAll ".time-slot"
             :: loop_calls (take 5 slots)
      ∧ Forall2 (λ slot sl, read_as P slot sl) (take 5 slots) available_slots.
Proof.
  intros K H s3 r1 r2.
  destruct (check_miss_ok_inv _ _ _ _ K H) as (E1 & E2 & E3 & E4 & _ & ->).
  rewrite (navigate_ok_trace _ E1).
  destruct (select_ok_trace _ _ E2) as [Hrec ->].
  destruct (get_slots_ok_inv _ _ E4) as (elems & _ & Hq & E5 & ->).
  destruct (for_slot_ok _ _ _ _ E5) as (new & Hnew & _ & HF).
  simpl in Hnew. subst new.
  split; [exact Hrec|]. exists elems.
  split; [exact Hq|]. split; [|exact HF].
  rewrite !page_calls_app.
  destruct (truthy d) eqn:Td.
  - rewrite (set_date_ok_trace d _ Td E3).
    rewrite !page_calls_cons. cbn [is_page_call].
    rewrite page_calls_loop.
    change (page_calls []) with (@nil event). simpl. now rewrite app_nil_r.
  - cbn [ret emitted].
    rewrite !page_calls_cons. cbn [is_page_call].
    rewrite page_calls_loop.
    change (page_calls []) with (@nil event). simpl. now rewrite app_nil_r.
Qed.

(** On a page that keeps showing the same slots, the page calls of a miss
    for a recognized type. *)
Lemma check_shows_page_calls handles texts label t d s :
  shows P handles texts label →
  recognized t →
  state s !! cache_key t d = None →
  page_calls (emitted (check_available_appointments P t d s)) =
    [Goto (url s); WaitForLoadState "networkidle"; Click (text_selector t)]
    ++ (if truthy d then [Click (text_selector (format d))] else [])
    ++ WaitForSelector ".time-slot" 10000 :: QuerySelectorAll ".time-slot"
       :: loop_calls (take 5 handles).
Proof.
  intros Hshow Hrec K.
  pose proof (check_shows _ _ _ _ _ _ Hshow Hrec K) as H.
  destruct (miss_ok_page_calls _ _ _ _ K H) as (_ & slots & Hq & Hcalls & _).
  destruct Hshow as (_ & _ & _ & _ & Hquery & _).
  rewrite Hquery in Hq. injection Hq as <-. exact Hcalls.
Qed.

(** Two queries in a row on a page that keeps showing the same slots, for
    two keys that are both absent: both return the list, the second one
    runs the flow again, and each key ends up cached. *)
Lemma two_misses_show handles texts label t d1 d2 s :
  shows P handles texts label →
  recognized t →
  d1 ≠ d2 →
  state s !! cache_key t d1 = None →
  state s !! cache_key t d2 = None →
  let cached := map (mkSlot label) (take 5 texts) in
  let o1 := check_available_appointments P t d1 s in
  let o2 := check_available_appointments P t d2 (final o1) in
  res o1 = Ok cached ∧ res o2 = Ok cached
  ∧ state (final o1) !! cache_key t d2 = None
  ∧ url (final o1) = url s
  ∧ state (final o2) !! cache_key t d1 = Some cached
  ∧ state (final o2) !! cache_key t d2 = Some cached.
Proof.
  intros Hshow Hrec Hd K1 K2 cached o1 o2.
  assert (cache_key t d1 ≠ cache_key t d2) as Hk by (unfold cache_key; congruence).
  pose proof (check_shows _ _ _ _ d1 s Hshow Hrec K1) as H1. fold cached o1 in H1.
  destruct (check_ok_stores _ _ _ _ H1) as (HU & Hs1 & Hother). fold o1 in HU, Hs1, Hother.
  assert (state (final o1) !! cache_key t d2 = None) as K2'
    by (rewrite Hother; auto).
  pose proof (check_shows _ _ _ _ d2 (final o1) Hshow Hrec K2') as H2.
  fold cached o2 in H2.
  destruct (check_ok_stores _ _ _ _ H2) as (_ & Hs2 & Hother2). fold o2 in Hs2, Hother2.
  repeat split; auto.
  rewrite Hother2 by exact Hk. exact Hs1.
Qed.

End Steps.

(** ** The claims *)

Section Claims.
Context {W : Type} (P : Page W).

(** C3. Failure non-caching: when a call of [check_available_appointments]
    raises, it was a cache miss and the dictionary [self.state] (and
    [self.url]) is what it was before the call, whichever of the four steps
    failed; so the key is still absent and the next call with the same
    arguments starts the flow again, beginning with the navigation to
    [self.url]. *)
Theorem failure_non_caching (s : SchedulingService W) t d e :
  res (check_available_appointments P t d s) = Raise e →
  let s' := final (check_available_appointments P t d s) in
  state s !! cache_key t d = None
  ∧ state s' = state s
  ∧ url s' = url s
  ∧ state s' !! cache_key t d = None
  ∧ ∃ rest, emitted (check_available_appointments P t d s') =
            Log INFO (MsgNavigating (url s)) :: Goto (url s) :: rest.
Proof.
  intros H s'.
  destruct (state s !! cache_key t d) as [cached|] eqn:K.
  { rewrite (check_hit P _ _ _ _ K) in H. discriminate. }
  assert (url s' = url s ∧ state s' = state s) as [Hu Hs].
  { subst s'. rewrite (check_miss P _ _ _ K) in *.
    bind_cases E1; [|apply keeps_navigate].
    destruct (keeps_navigate P s) as [<- <-].
    bind_cases E2; [|apply keeps_select].
    destruct (keeps_select P t (final (navigate_to_scheduling_page P s))) as [<- <-].
    bind_cases E3; [|apply (keeps_if _ _ _ (keeps_set_date P d) (keeps_ret tt))].
    destruct (keeps_if (truthy d) _ _ (keeps_set_date P d) (keeps_ret tt)
                (final (select_appointment_type_direct_click P t
                   (final (navigate_to_scheduling_page P s))))) as [<- <-].
    bind_cases E4; [discriminate|apply keeps_get_slots]. }
  repeat split; try congruence.
  rewrite <- Hu. apply check_miss_starts. congruence.
Qed.

(** C1. Cache idempotence: once a call of [check_available_appointments] has
    returned a list, the same call on the same instance returns the same
    list, leaves the service and the page as they are and only writes the
    "Using cached data" log record: it calls no page method.  When the
    first call was a miss, the two calls together navigate exactly once and
    query the slots exactly once. *)
Theorem cache_idempotence (s : SchedulingService W) t d slots :
  res (check_available_appointments P t d s) = Ok slots →
  let s1 := final (check_available_appointments P t d s) in
  let evs := emitted (check_available_appointments P t d s)
             ++ emitted (check_available_appointments P t d s1) in
  check_available_appointments P t d s1 =
    Out (Ok slots) s1 [Log INFO (MsgUsingCached t d)]
  ∧ page_calls (emitted (check_available_appointments P t d s1)) = []
  ∧ (state s !! cache_key t d = None →
     count is_goto evs = 1%nat ∧ count is_query evs = 1%nat).
Proof.
  intros H s1 evs.
  assert (state s1 !! cache_key t d = Some slots) as K1.
  { subst s1. destruct (state s !! cache_key t d) as [cached|] eqn:K.
    - rewrite (check_hit P _ _ _ _ K) in *. simpl in *. congruence.
    - destruct (check_miss_ok_inv P _ _ _ _ K H) as (_ & _ & _ & _ & -> & _).
      simpl. apply lookup_insert_eq. }
  assert (check_available_appointments P t d s1 =
            Out (Ok slots) s1 [Log INFO (MsgUsingCached t d)]) as H1
    by exact (check_hit P _ _ _ _ K1).
  split; [exact H1|]. split; [now rewrite H1|].
  intros K. subst evs. rewrite H1. cbn [emitted].
  destruct (check_miss_ok_inv P _ _ _ _ K H) as (E1 & E2 & E3 & E4 & _ & ->).
  rewrite (navigate_ok_trace P _ E1).
  destruct (get_slots_ok_inv P _ _ E4) as (elems & _ & _ & _ & ->).
  assert (∀ f s', f = is_goto ∨ f = is_query →
            count f (emitted (select_appointment_type_direct_click P t s')) = 0%nat) as Z2.
  { intros f s' [-> | ->]; apply count_zero, select_emits; reflexivity. }
  assert (∀ f s', f = is_goto ∨ f = is_query →
            count f (emitted ((if truthy d then set_date_preference P d else ret tt) s'))
            = 0%nat) as Z3.
  { intros f s' [-> | ->]; apply count_zero, set_date_emits; reflexivity. }
  rewrite !count_app, !Z2, !Z3 by auto.
  rewrite !count_loop_calls by reflexivity.
  split; reflexivity.
Qed.

(** C2 (as the code has it).  The appointment type is validated inside the
    second step, not before the flow.  For a type outside the recognized
    set and a key that is not cached, the call always raises, never calls
    [click], and caches nothing; but it navigates first, and when the
    navigation succeeds the [ValueError] raised by the [else] branch is
    caught by the handler of the step, which logs it, takes the error
    screenshot and re-raises it (the error of the screenshot, if that
    fails).  When the navigation fails, its error is the one raised. *)
Theorem unknown_type_fails_in_second_step (s : SchedulingService W) t d :
  ¬ recognized t →
  state s !! cache_key t d = None →
  let o := check_available_appointments P t d s in
  let o1 := navigate_to_scheduling_page P s in
  let unknown := ValueError ("Unknown appointment type: " +:+ t) in
  (∃ e, res o = Raise e)
  ∧ count is_click (emitted o) = 0%nat
  ∧ state (final o) = state s
  ∧ (∃ rest, emitted o = Log INFO (MsgNavigating (url s)) :: Goto (url s) :: rest)
  ∧ (res o1 = Ok tt →
     emitted o = emitted o1 ++ [Log INFO (MsgSelectingType t);
                                Log ERROR (MsgErrorSelectingType unknown);
                                Screenshot "error_screenshot.png"]
     ∧ res o = match fst (screenshot P "error_screenshot.png" (page (final o1))) with
               | Ok _ => Raise unknown
               | Raise e' => Raise e'
               end)
  ∧ (∀ e, res o1 = Raise e → res o = Raise e ∧ emitted o = emitted o1).
Proof.
  intros Hn K o o1 unknown.
  assert (count is_click (emitted o1) = 0%nat) as C1
    by (apply count_zero, navigate_emits; reflexivity).
  assert (∃ rest, emitted o = Log INFO (MsgNavigating (url s)) :: Goto (url s) :: rest)
    as Hstart by apply (check_miss_starts P _ _ _ K).
  destruct (keeps_navigate P s) as [_ S1]. fold o1 in S1.
  subst o. rewrite (check_miss P _ _ _ K) in *. clear Hstart.
  destruct (res o1) as [[]|e1] eqn:E1; subst o1.
  - rewrite (bind_ok _ _ _ _ E1). cbn [res final emitted].
    pose proof (select_unknown P t (final (navigate_to_scheduling_page P s)) Hn) as Hsel.
    fold unknown in Hsel.
    destruct (fst (screenshot P "error_screenshot.png"
                     (page (final (navigate_to_scheduling_page P s))))) as [[]|e'] eqn:Esh.
    + rewrite (bind_raise _ _ _ unknown) by now rewrite Hsel.
      rewrite Hsel. cbn [res final emitted state].
      rewrite count_app, C1.
      repeat split; eauto; try discriminate.
      destruct (navigate_starts P s) as [rest ->]. simpl. eauto.
    + rewrite (bind_raise _ _ _ e') by now rewrite Hsel.
      rewrite Hsel. cbn [res final emitted state].
      rewrite count_app, C1.
      repeat split; eauto; try discriminate.
      destruct (navigate_starts P s) as [rest ->]. simpl. eauto.
  - rewrite (bind_raise _ _ _ _ E1). cbn [res final emitted].
    repeat split; eauto; try discriminate.
    + apply navigate_starts.
    + congruence.
Qed.

(** C8 (as the code has it).  The screenshot of the handlers is not guarded:
    its own failure is not swallowed.  When [check_available_appointments]
    raises [e], one of the four [try] suites has raised an error [e0]; the
    last two events of the call are the error record that logs [e0] and the
    screenshot; and [e] is [e0] when that screenshot succeeds, but is the
    error of the screenshot when the screenshot itself raises.  Nothing is
    logged about a failed screenshot. *)
Theorem error_raised_after_screenshot (s : SchedulingService W) t d e :
  res (check_available_appointments P t d s) = Raise e →
  ∃ pre msg e0 w,
    emitted (check_available_appointments P t d s) =
      pre ++ [Log ERROR (msg e0); Screenshot "error_screenshot.png"]
    ∧ page (final (check_available_appointments P t d s)) =
        snd (screenshot P "error_screenshot.png" w)
    ∧ match fst (screenshot P "error_screenshot.png" w) with
      | Ok _ => e = e0
      | Raise e' => e = e'
      end
    ∧ (msg = MsgErrorNavigating ∧ failed_in (navigate_try P (url s)) e0 w
       ∨ msg = MsgErrorSelectingType ∧ failed_in (select_try P t) e0 w
       ∨ msg = MsgErrorSelectingDate ∧ truthy d = true ∧ failed_in (date_try P d) e0 w
       ∨ msg = MsgErrorCheckingSlots ∧ failed_in (slots_try P) e0 w).
Proof.
  intros H.
  destruct (state s !! cache_key t d) as [cached|] eqn:K.
  { rewrite (check_hit P _ _ _ _ K) in H. discriminate. }
  rewrite (check_miss P _ _ _ K) in *.
  bind_cases E1.
  2:{ injection H as ->.
      destruct (step_report P _ _ _ _ _ _ (navigate_run P s) E1)
        as (e0 & Hf & -> & -> & Hm).
      exists (Log INFO (MsgNavigating (url s)) :: emitted (navigate_try P (url s) s)),
        MsgErrorNavigating, e0, (page (final (navigate_try P (url s) s))).
      repeat split; auto. }
  bind_cases E2.
  2:{ injection H as ->.
      destruct (step_report P _ _ _ _ _ _ (select_run P t _) E2)
        as (e0 & Hf & -> & -> & Hm).
      rewrite !app_assoc. eexists _, MsgErrorSelectingType, e0, _.
      split; [reflexivity|]. repeat split; auto 10. }
  bind_cases E3.
  2:{ injection H as ->. destruct (truthy d) eqn:Td; [|discriminate].
      destruct (step_report P _ _ _ _ _ _ (set_date_run P d _ Td) E3)
        as (e0 & Hf & -> & -> & Hm).
      rewrite !app_assoc. eexists _, MsgErrorSelectingDate, e0, _.
      split; [reflexivity|]. repeat split; auto 10. }
  bind_cases E4; [discriminate|].
  injection H as ->.
  destruct (step_report P _ _ _ _ _ _ (get_slots_run P _) E4)
    as (e0 & Hf & -> & -> & Hm).
  rewrite !app_assoc. eexists _, MsgErrorCheckingSlots, e0, _.
  split; [reflexivity|]. repeat split; auto 10.
Qed.


(** C5. Empty-but-successful result: when the wait for the slot selector
    succeeds and the query then finds no element, [get_available_slots]
    returns the empty list; it raises nothing and takes no screenshot. *)
Theorem empty_but_successful (s : SchedulingService W) :
  let r1 := wait_for_selector P ".time-slot" 10000 (page s) in
  let r2 := query_selector_all P ".time-slot" (snd r1) in
  fst r1 = Ok tt →
  fst r2 = Ok [] →
  res (get_available_slots P s) = Ok []
  ∧ emitted (get_available_slots P s) =
      [Log INFO MsgCheckingSlots; WaitForSelector ".time-slot" 10000;
       QuerySelectorAll ".time-slot"; Log INFO (MsgSlotsFound [])].
Proof.
  intros r1 r2 E1 E2.
  apply (get_slots_ok_intro P s [] [] E1 E2). reflexivity.
Qed.

(** C6 (as the code has it).  The date label is read inside the loop, once
    for every slot taken, right after the text of that slot: a successful
    scrape reads the label as many times as it returns slots, and the date
    of each slot is the text that the label had at that slot's iteration.
    The slots of one result carry the same date whenever the label cannot
    show two different texts. *)
Theorem date_label_read_for_each_slot (s : SchedulingService W) available_slots :
  res (get_available_slots P s) = Ok available_slots →
  count is_label_read (emitted (get_available_slots P s)) = length available_slots
  ∧ (∃ slots, Forall2 (λ slot sl, read_as P slot sl) slots available_slots)
  ∧ ((∀ w w' d d',
        fst (locator_inner_text P ".selected-date" w) = Ok d →
        fst (locator_inner_text P ".selected-date" w') = Ok d' → d = d') →
     ∀ sl sl', sl ∈ available_slots → sl' ∈ available_slots → date sl = date sl').
Proof.
  intros H.
  destruct (get_slots_ok_inv P _ _ H) as (elems & _ & _ & E3 & ->).
  destruct (for_slot_ok P _ _ _ _ E3) as (new & Hnew & _ & HF).
  simpl in Hnew. subst new.
  split; [|split].
  - rewrite !count_app, count_label_reads, !count_cons. simpl.
    rewrite (Forall2_length _ _ _ HF). unfold count. simpl. lia.
  - eauto.
  - intros Hstable sl sl' Hin Hin'.
    assert (∀ x, x ∈ available_slots →
              ∃ w, fst (locator_inner_text P ".selected-date" w) = Ok (date x)) as Hex.
    { clear -HF. induction HF as [|h x l k (w & _ & Hx) _ IH]; intros y Hy.
      - inversion Hy.
      - apply elem_of_cons in Hy as [-> | Hy]; eauto. }
    destruct (Hex _ Hin) as [w Hw]. destruct (Hex _ Hin') as [w' Hw'].
    eauto.
Qed.

(** C7. Cache key distinctness: two keys are equal exactly when both
    components are, and an absent date preference differs from every date
    string.  Queries that differ only in the date preference are cached
    under two entries: a result stored under [(t, d1)] is stored under that
    key only; after a query for [(t, d1)] and then one for [(t, d2)] have
    both returned, each key holds the list its own query returned, and the
    second query, its key being absent, ran the flow from the navigation
    instead of using the entry of the first.  On a page that answers every
    call, for a recognized type and two absent keys, the two queries do
    return and both entries are there. *)
Theorem cache_key_distinctness (s : SchedulingService W) t d1 d2 :
  d1 ≠ d2 →
  let o1 := check_available_appointments P t d1 s in
  let o2 := check_available_appointments P t d2 (final o1) in
  cache_key t d1 ≠ cache_key t d2
  ∧ (∀ t' d', cache_key t d1 = cache_key t' d' ↔ t = t' ∧ d1 = d')
  ∧ (∀ x, cache_key t None ≠ cache_key t (Some x))
  ∧ (∀ slots1,
       res o1 = Ok slots1 →
       state (final o1) !! cache_key t d1 = Some slots1
       ∧ state (final o1) !! cache_key t d2 = state s !! cache_key t d2)
  ∧ (∀ slots1 slots2,
       res o1 = Ok slots1 →
       res o2 = Ok slots2 →
       state (final o2) !! cache_key t d1 = Some slots1
       ∧ state (final o2) !! cache_key t d2 = Some slots2
       ∧ (state s !! cache_key t d2 = None →
          ∃ rest, emitted o2 =
                  Log INFO (MsgNavigating (url s)) :: Goto (url s) :: rest))
  ∧ (∀ handles texts label,
       shows P handles texts label →
       recognized t →
       state s !! cache_key t d1 = None →
       state s !! cache_key t d2 = None →
       let cached := map (mkSlot label) (take 5 texts) in
       res o1 = Ok cached ∧ res o2 = Ok cached
       ∧ (∃ rest, emitted o2 =
                  Log INFO (MsgNavigating (url s)) :: Goto (url s) :: rest)
       ∧ state (final o2) !! cache_key t d1 = Some cached
       ∧ state (final o2) !! cache_key t d2 = Some cached).
Proof.
  intros Hd o1 o2.
  assert (cache_key t d1 ≠ cache_key t d2) as Hk
    by (unfold cache_key; congruence).
  split; [exact Hk|]. split; [|split; [|split; [|split]]].
  - intros t' d'. unfold cache_key. split; [intros [= -> ->]; auto | intros [-> ->]; auto].
  - intros x. unfold cache_key. congruence.
  - intros slots1 H1.
    destruct (check_ok_stores P _ _ _ _ H1) as (_ & Hs1 & Hs2).
    split; [exact Hs1|]. apply Hs2. congruence.
  - intros slots1 slots2 H1 H2.
    destruct (check_ok_stores P _ _ _ _ H1) as (HU & Hs1 & Hother1).
    fold o1 in HU, Hs1, Hother1.
    destruct (check_ok_stores P _ _ _ _ H2) as (_ & Hs2 & Hother2).
    fold o2 in Hs2, Hother2.
    split; [rewrite Hother2 by exact Hk; exact Hs1|]. split; [exact Hs2|].
    intros K2. rewrite <- HU. apply check_miss_starts.
    rewrite Hother1 by congruence. exact K2.
  - intros handles texts label Hshow Hrec K1 K2 cached.
    destruct (two_misses_show P _ _ _ _ _ _ _ Hshow Hrec Hd K1 K2)
      as (H1 & H2 & K2' & HU & Hs1 & Hs2).
    fold cached o1 in H1, H2, K2', HU, Hs1, Hs2. fold o2 in H2, Hs1, Hs2.
    repeat split; auto.
    rewrite <- HU. apply (check_miss_starts P _ _ _ K2').
Qed.

(** C9. End-to-end example: on a page that answers the calls of the flow and
    shows slot elements with the texts 9:00 AM, 9:30 AM and 10:00 AM under
    the date label Oct 10, 2025, the query for a new appointment with no
    date preference returns the three slots, in that order, each with that
    date. *)
Theorem end_to_end_example (s : SchedulingService W) slots :
  shows P slots ["9:00 AM"; "9:30 AM"; "10:00 AM"] "Oct 10, 2025" →
  state s !! cache_key "New appointment" None = None →
  res (check_available_appointments P "New appointment" None s) =
    Ok [mkSlot "Oct 10, 2025" "9:00 AM";
        mkSlot "Oct 10, 2025" "9:30 AM";
        mkSlot "Oct 10, 2025" "10:00 AM"].
Proof.
  intros Hshow K.
  rewrite (check_shows P _ _ _ _ _ _ Hshow) by (unfold recognized; auto).
  reflexivity.
Qed.

(** C10. An empty date string is falsy: [set_date_preference] does nothing
    for it, as for [None], and from the same service state the call with
    the empty string returns what the call with [None] returns, after the
    same events, leaving the page in the same world.  But the two keys
    differ: after a successful call with [None], the key of the empty
    string is still absent, the call with the empty string runs the flow
    again from the navigation, and when it succeeds both keys are cached.
    On a page that answers every call, for a recognized type, this is what
    happens: the two calls return the list, the second makes the page calls
    of the first once more, beginning with [goto], and the list ends up
    cached under both keys. *)
Theorem falsy_date_skipped_but_keyed (s : SchedulingService W) t :
  state s !! cache_key t None = None →
  state s !! cache_key t (Some "") = None →
  let oN := check_available_appointments P t None s in
  let oE := check_available_appointments P t (Some "") s in
  let oE' := check_available_appointments P t (Some "") (final oN) in
  set_date_preference P (Some "") s = set_date_preference P None s
  ∧ emitted (set_date_preference P (Some "") s) = []
  ∧ res oE = res oN ∧ emitted oE = emitted oN ∧ page (final oE) = page (final oN)
  ∧ cache_key t (Some "") ≠ cache_key t None
  ∧ (∀ slots, res oN = Ok slots →
       state (final oN) !! cache_key t (Some "") = None
       ∧ (∃ rest, emitted oE' =
                  Log INFO (MsgNavigating (url s)) :: Goto (url s) :: rest)
       ∧ ∀ slots', res oE' = Ok slots' →
           state (final oE') !! cache_key t None = Some slots
           ∧ state (final oE') !! cache_key t (Some "") = Some slots')
  ∧ (∀ handles texts label,
       shows P handles texts label →
       recognized t →
       let cached := map (mkSlot label) (take 5 texts) in
       res oN = Ok cached ∧ res oE' = Ok cached
       ∧ page_calls (emitted oN) =
           Goto (url s) :: WaitForLoadState "networkidle" :: Click (text_selector t)
             :: WaitForSelector ".time-slot" 10000 :: QuerySelectorAll ".time-slot"
             :: loop_calls (take 5 handles)
       ∧ page_calls (emitted oE') = page_calls (emitted oN)
       ∧ state (final oE') !! cache_key t None = Some cached
       ∧ state (final oE') !! cache_key t (Some "") = Some cached).
Proof.
  intros KN KE oN oE oE'.
  destruct (check_miss_split P _ _ _ KN) as (RN & EN & PN & UN & SN).
  destruct (check_miss_split P _ _ _ KE) as (RE & EE & PE & UE & SE).
  fold oN in RN, EN, PN, UN, SN. fold oE in RE, EE, PE, UE, SE.
  simpl truthy in *.
  assert (cache_key t (Some "") ≠ cache_key t None) as Hk by (unfold cache_key; congruence).
  split; [reflexivity|]. split; [reflexivity|].
  split; [now rewrite RE, RN|]. split; [now rewrite EE, EN|].
  split; [now rewrite PE, PN|]. split; [exact Hk|]. split.
  - intros slots HN.
    destruct (check_ok_stores P _ _ _ _ HN) as (HU & HsN & HsE). fold oN in HU, HsN, HsE.
    assert (state (final oN) !! cache_key t (Some "") = None) as KE'
      by (rewrite HsE; auto).
    split; [exact KE'|]. split.
    + rewrite <- HU. apply (check_miss_starts P _ _ _ KE').
    + intros slots' HE'.
      destruct (check_ok_stores P _ _ _ _ HE') as (_ & Hs1 & Hs2). fold oE' in Hs1, Hs2.
      split; [|exact Hs1]. rewrite Hs2 by congruence. exact HsN.
  - intros handles texts label Hshow Hrec cached.
    assert (None ≠ Some "") as Hd by discriminate.
    destruct (two_misses_show P _ _ _ _ _ _ _ Hshow Hrec Hd KN KE)
      as (H1 & H2 & K2' & HU & Hs1 & Hs2).
    fold cached oN in H1, H2, K2', HU, Hs1, Hs2. fold oE' in H2, Hs1, Hs2.
    pose proof (check_shows_page_calls P _ _ _ _ None s Hshow Hrec KN) as C1.
    pose proof (check_shows_page_calls P _ _ _ _ (Some "") (final oN) Hshow Hrec K2')
      as C2.
    fold oN in C1. fold oE' in C2. rewrite HU in C2.
    repeat split; auto. now rewrite C2, C1.
Qed.

End Claims.

(** ** The claims on the simulated pages *)

Lemma cache_idempotence_witness :
  let P := Sim.sim_page Sim.example_site in
  let o := check_available_appointments P "New appointment" None Sim.fresh in
  let o' := check_available_appointments P "New appointment" None (final o) in
  res o = res o' ∧ page_calls (emitted o') = []
  ∧ count is_goto (emitted o ++ emitted o') = 1%nat.
Proof.
  intros P o o'.
  pose proof (cache_idempotence P Sim.fresh "New appointment" None
                [mkSlot "Oct 10, 2025" "9:00 AM"; mkSlot "Oct 10, 2025" "9:30 AM";
                 mkSlot "Oct 10, 2025" "10:00 AM"] eq_refl) as H.
  cbv zeta in H. destruct H as (H1 & H2 & H3).
  split; [|split].
  - subst o o'. rewrite H1. reflexivity.
  - exact H2.
  - apply H3. reflexivity.
Defined.

(** C2, the claim as stated: on a page where every call succeeds, the query
    for the unrecognized type Root canal with an empty cache does not fail
    before the flow: it navigates to the page, waits for it to load, and
    takes a screenshot before the [ValueError] reaches the caller. *)
Lemma unknown_type_reaches_the_page :
  let o := check_available_appointments (Sim.sim_page Sim.example_site)
             "Root canal" None Sim.fresh in
  ¬ recognized "Root canal"
  ∧ res o = Raise (ValueError "Unknown appointment type: Root canal")
  ∧ page_calls (emitted o) =
      [Goto Sim.site_url; WaitForLoadState "networkidle";
       Screenshot "error_screenshot.png"]
  ∧ count is_goto (emitted o) ≠ 0%nat
  ∧ count is_screenshot (emitted o) ≠ 0%nat.
Proof.
  intros o. split.
  - intros [H | [H | H]]; discriminate H.
  - repeat split; try reflexivity; vm_compute; discriminate.
Qed.

Lemma unknown_type_fails_in_second_step_witness :
  let o := check_available_appointments (Sim.sim_page Sim.example_site)
             "Root canal" None Sim.fresh in
  (∃ e, res o = Raise e)
  ∧ count is_click (emitted o) = 0%nat
  ∧ state (final o) = state Sim.fresh.
Proof.
  intros o.
  assert (¬ recognized "Root canal") as Hn
    by (intros [H | [H | H]]; discriminate H).
  pose proof (unknown_type_fails_in_second_step (Sim.sim_page Sim.example_site)
                Sim.fresh "Root canal" None Hn eq_refl) as H.
  cbv zeta in H. destruct H as (H1 & H2 & H3 & _).
  auto.
Defined.

Lemma failure_non_caching_witness :
  let P := Sim.sim_page Sim.offline_site in
  let o := check_available_appointments P "New appointment" None Sim.fresh in
  res o = Raise (PlaywrightError "net::ERR_INTERNET_DISCONNECTED")
  ∧ state (final o) = state Sim.fresh
  ∧ ∃ rest, emitted (check_available_appointments P "New appointment" None (final o)) =
            Log INFO (MsgNavigating Sim.site_url) :: Goto Sim.site_url :: rest.
Proof.
  intros P o.
  pose proof (failure_non_caching P Sim.fresh "New appointment" None
                (PlaywrightError "net::ERR_INTERNET_DISCONNECTED") eq_refl) as H.
  cbv zeta in H. destruct H as (_ & H2 & _ & _ & H5).
  split; [reflexivity|]. split; [exact H2 | exact H5].
Defined.



Lemma empty_but_successful_witness :
  res (get_available_slots (Sim.sim_page Sim.empty_site) Sim.fresh) = Ok [].
Proof.
  apply (empty_but_successful (Sim.sim_page Sim.empty_site) Sim.fresh eq_refl eq_refl).
Defined.

(** C6, the claim as stated: on a page whose date label changes from Oct 10
    to Oct 11 while the slots are scraped, one successful query returns two
    slots with two different dates, and the label has been read twice, once
    for each slot. *)
Lemma date_label_changes_between_slots :
  let o := check_available_appointments (Sim.sim_page Sim.ticking_site)
             "New appointment" None Sim.fresh in
  res o = Ok [mkSlot "Oct 10, 2025" "11:30 PM"; mkSlot "Oct 11, 2025" "11:45 PM"]
  ∧ count is_label_read (emitted o) = 2%nat
  ∧ ∃ sl sl', res o = Ok [sl; sl'] ∧ date sl ≠ date sl'.
Proof.
  intros o. split; [reflexivity|]. split; [reflexivity|].
  exists (mkSlot "Oct 10, 2025" "11:30 PM"), (mkSlot "Oct 11, 2025" "11:45 PM").
  split; [reflexivity | discriminate].
Qed.

Lemma date_label_read_for_each_slot_witness :
  count is_label_read
    (emitted (get_available_slots (Sim.sim_page Sim.ticking_site) Sim.fresh)) = 2%nat.
Proof.
  apply (date_label_read_for_each_slot (Sim.sim_page Sim.ticking_site) Sim.fresh
           [mkSlot "Oct 10, 2025" "11:30 PM"; mkSlot "Oct 11, 2025" "11:45 PM"] eq_refl).
Defined.

Lemma cache_key_distinctness_witness :
  let P := Sim.sim_page Sim.ticking_site in
  let o1 := check_available_appointments P "New appointment" None Sim.fresh in
  let o2 := check_available_appointments P "New appointment" (Some "Oct 12, 2025")
              (final o1) in
  state (final o2) !! cache_key "New appointment" None =
    Some [mkSlot "Oct 10, 2025" "11:30 PM"; mkSlot "Oct 11, 2025" "11:45 PM"]
  ∧ state (final o2) !! cache_key "New appointment" (Some "Oct 12, 2025") =
      Some [mkSlot "Oct 11, 2025" "11:30 PM"; mkSlot "Oct 11, 2025" "11:45 PM"]
  ∧ ∃ rest, emitted o2 =
            Log INFO (MsgNavigating Sim.site_url) :: Goto Sim.site_url :: rest.
Proof.
  intros P o1 o2.
  assert (None ≠ Some "Oct 12, 2025") as Hd by discriminate.
  pose proof (cache_key_distinctness P Sim.fresh "New appointment" None
                (Some "Oct 12, 2025") Hd) as H.
  cbv zeta in H. destruct H as (_ & _ & _ & _ & H5 & _).
  destruct (H5 [mkSlot "Oct 10, 2025" "11:30 PM"; mkSlot "Oct 11, 2025" "11:45 PM"]
               [mkSlot "Oct 11, 2025" "11:30 PM"; mkSlot "Oct 11, 2025" "11:45 PM"]
               eq_refl eq_refl) as (H1 & H2 & H3).
  split; [exact H1|]. split; [exact H2|]. apply H3. reflexivity.
Defined.

(** C8, the claim as stated: on a page where the navigation fails and the
    screenshot fails too, the caller does not get the navigation error: it
    gets the error of the screenshot, and no log record mentions that the
    screenshot failed. *)
Lemma screenshot_failure_replaces_navigation_error :
  let P := Sim.sim_page Sim.crashed_site in
  let o := check_available_appointments P "New appointment" None Sim.fresh in
  res (navigate_try P Sim.site_url Sim.fresh)
    = Raise (PlaywrightError "net::ERR_INTERNET_DISCONNECTED")
  ∧ res o = Raise (PlaywrightError "Target page, context or browser has been closed")
  ∧ res o ≠ Raise (PlaywrightError "net::ERR_INTERNET_DISCONNECTED")
  ∧ emitted o =
      [Log INFO (MsgNavigating Sim.site_url); Goto Sim.site_url;
       Log ERROR (MsgErrorNavigating (PlaywrightError "net::ERR_INTERNET_DISCONNECTED"));
       Screenshot "error_screenshot.png"].
Proof.
  intros P o. repeat split; try reflexivity. vm_compute. discriminate.
Qed.

Lemma error_raised_after_screenshot_witness :
  let o := check_available_appointments (Sim.sim_page Sim.offline_site)
             "New appointment" None Sim.fresh in
  ∃ pre (msg : exn → message) e0,
    emitted o = pre ++ [Log ERROR (msg e0); Screenshot "error_screenshot.png"].
Proof.
  intros o.
  destruct (error_raised_after_screenshot (Sim.sim_page Sim.offline_site) Sim.fresh
              "New appointment" None
              (PlaywrightError "net::ERR_INTERNET_DISCONNECTED") eq_refl)
    as (pre & msg & e0 & w & H & _).
  exists pre, msg, e0. exact H.
Defined.

Lemma end_to_end_example_witness :
  res (check_available_appointments (Sim.sim_page Sim.example_site)
         "New appointment" None Sim.fresh) =
    Ok [mkSlot "Oct 10, 2025" "9:00 AM";
        mkSlot "Oct 10, 2025" "9:30 AM";
        mkSlot "Oct 10, 2025" "10:00 AM"].
Proof.
  apply (end_to_end_example (Sim.sim_page Sim.example_site) Sim.fresh [0; 1; 2]%nat).
  - repeat split; try (intros; reflexivity).
    + repeat constructor.
    + intros [|w]; reflexivity.
  - reflexivity.
Defined.

Lemma falsy_date_skipped_but_keyed_witness :
  let P := Sim.sim_page Sim.example_site in
  let three := [mkSlot "Oct 10, 2025" "9:00 AM"; mkSlot "Oct 10, 2025" "9:30 AM";
                mkSlot "Oct 10, 2025" "10:00 AM"] in
  let oN := check_available_appointments P "New appointment" None Sim.fresh in
  let oE' := check_available_appointments P "New appointment" (Some "") (final oN) in
  res oN = Ok three ∧ res oE' = Ok three
  ∧ page_calls (emitted oE') =
      Goto Sim.site_url :: WaitForLoadState "networkidle"
        :: Click (text_selector "New appointment")
        :: WaitForSelector ".time-slot" 10000 :: QuerySelectorAll ".time-slot"
        :: loop_calls [0; 1; 2]%nat
  ∧ state (final oE') !! cache_key "New appointment" None = Some three
  ∧ state (final oE') !! cache_key "New appointment" (Some "") = Some three.
Proof.
  intros P three oN oE'.
  assert (shows P [0; 1; 2]%nat ["9:00 AM"; "9:30 AM"; "10:00 AM"] "Oct 10, 2025")
    as Hshow.
  { repeat split; try (intros; reflexivity).
    - repeat constructor.
    - intros [|w]; reflexivity. }
  pose proof (falsy_date_skipped_but_keyed P Sim.fresh "New appointment"
                eq_refl eq_refl) as H.
  cbv zeta in H. destruct H as (_ & _ & _ & _ & _ & _ & _ & H8).
  destruct (H8 _ _ _ Hshow) as (H1 & H2 & H3 & H4 & H5 & H6);
    [unfold recognized; auto|].
  split; [exact H1|]. split; [exact H2|].
  split; [exact (eq_trans H4 H3)|].
  split; [exact H5 | exact H6].
Defined.

(** ** More about the flow *)

Section FlowSteps.
Context {W : Type} (P : Page W).

Lemma screenshots_app evs1 evs2 :
  screenshots (evs1 ++ evs2) = screenshots evs1 ++ screenshots evs2.
Proof. apply filter_app. Qed.

Lemma screenshots_cons e evs :
  screenshots (e :: evs) = if is_screenshot e then e :: screenshots evs else screenshots evs.
Proof.
  unfold screenshots. rewrite filter_cons.
  destruct (is_screenshot e); case_decide; congruence.
Qed.

Lemma screenshots_none evs :
  Forall (λ e, is_screenshot e = false) evs → screenshots evs = [].
Proof.
  induction 1 as [|e evs He _ IH]; [reflexivity|].
  now rewrite screenshots_cons, He.
Qed.

Lemma navigate_try_quiet u : emits (λ e, is_screenshot e = false) (navigate_try P u).
Proof.
  unfold navigate_try, page_goto, page_wait_for_load_state. auto 10 with svc.
Qed.

Lemma select_try_quiet t : emits (λ e, is_screenshot e = false) (select_try P t).
Proof. unfold select_try, page_click. auto 10 with svc. Qed.

Lemma date_try_quiet d : emits (λ e, is_screenshot e = false) (date_try P d).
Proof. unfold date_try, page_click. auto 10 with svc. Qed.

Lemma slots_try_quiet : emits (λ e, is_screenshot e = false) (slots_try P).
Proof.
  unfold slots_try, page_wait_for_selector, page_query_selector_all.
  auto 15 using for_slot_emits with svc.
Qed.

(** A method made of one log record and a guarded suite takes a screenshot
    exactly when it raises. *)
Lemma guarded_screenshots {A} (body : M W A) msg (m : M W A) l s :
  is_screenshot l = false →
  emits (λ e, is_screenshot e = false) body →
  m s = (let o := try_except body (on_error P msg) s in
         Out (res o) (final o) (l :: emitted o)) →
  screenshots (emitted (m s)) =
    match res (m s) with
    | Ok _ => []
    | Raise _ => [Screenshot "error_screenshot.png"]
    end.
Proof.
  intros Hl Hb ->. cbv zeta. cbn [res emitted].
  rewrite screenshots_cons, Hl.
  destruct (res (body s)) as [a|e] eqn:E.
  - rewrite (try_ok _ _ _ _ E), E. apply screenshots_none, Hb.
  - rewrite (try_on_error P _ _ _ _ E). cbn [res emitted].
    rewrite screenshots_app, (screenshots_none _ (Hb s)).
    destruct (fst (screenshot P _ _)); reflexivity.
Qed.

Lemma navigate_screenshots s :
  screenshots (emitted (navigate_to_scheduling_page P s)) =
    match res (navigate_to_scheduling_page P s) with
    | Ok _ => []
    | Raise _ => [Screenshot "error_screenshot.png"]
    end.
Proof.
  apply (guarded_screenshots (navigate_try P (url s)) MsgErrorNavigating _
           (Log INFO (MsgNavigating (url s))));
    [reflexivity | apply navigate_try_quiet | apply navigate_run].
Qed.

Lemma select_screenshots t s :
  screenshots (emitted (select_appointment_type_direct_click P t s)) =
    match res (select_appointment_type_direct_click P t s) with
    | Ok _ => []
    | Raise _ => [Screenshot "error_screenshot.png"]
    end.
Proof.
  apply (guarded_screenshots (select_try P t) MsgErrorSelectingType _
           (Log INFO (MsgSelectingType t)));
    [reflexivity | apply select_try_quiet | apply select_run].
Qed.

Lemma date_step_screenshots d s :
  screenshots (emitted ((if truthy d then set_date_preference P d else ret tt) s)) =
    match res ((if truthy d then set_date_preference P d else ret tt) s) with
    | Ok _ => []
    | Raise _ => [Screenshot "error_screenshot.png"]
    end.
Proof.
  destruct (truthy d) eqn:Td; [|reflexivity].
  apply (guarded_screenshots (date_try P d) MsgErrorSelectingDate _
           (Log INFO (MsgSelectingDate d)));
    [reflexivity | apply date_try_quiet | apply (set_date_run P d s Td)].
Qed.

Lemma get_slots_screenshots s :
  screenshots (emitted (get_available_slots P s)) =
    match res (get_available_slots P s) with
    | Ok _ => []
    | Raise _ => [Screenshot "error_screenshot.png"]
    end.
Proof.
  apply (guarded_screenshots (slots_try P) MsgErrorCheckingSlots _
           (Log INFO MsgCheckingSlots));
    [reflexivity | apply slots_try_quiet | apply get_slots_run].
Qed.

(** The four steps in a row keep [self.url] and [self.state]. *)
Lemma keeps_steps t d :
  keeps (navigate_to_scheduling_page P;;
         select_appointment_type_direct_click P t;;
         (if truthy d then set_date_preference P d else ret tt);;
         get_available_slots P).
Proof.
  auto 10 using keeps_navigate, keeps_select, keeps_set_date, keeps_get_slots
    with svc.
Qed.

Lemma get_slots_length s available_slots :
  res (get_available_slots P s) = Ok available_slots →
  (length available_slots ≤ 5)%nat.
Proof.
  intros H.
  destruct (get_slots_ok_inv P _ _ H) as (elems & _ & _ & E3 & _).
  destruct (for_slot_ok P _ _ _ _ E3) as (new & Hnew & _ & HF).
  simpl in Hnew. subst new.
  rewrite <- (Forall2_length _ _ _ HF), length_take. lia.
Qed.

(** A call that raises leaves the dictionary as it was. *)
Lemma check_raise_state t d s e :
  res (check_available_appointments P t d s) = Raise e →
  state (final (check_available_appointments P t d s)) = state s.
Proof.
  intros H. destruct (state s !! cache_key t d) as [cached|] eqn:K.
  - rewrite (check_hit P _ _ _ _ K) in H. discriminate.
  - destruct (check_miss_split P _ _ _ K) as (R & _ & _ & _ & S).
    rewrite S. rewrite <- R, H. apply keeps_steps.
Qed.

End FlowSteps.

Section FlowProperties.
Context {W : Type} (P : Page W).

(** X1. A query takes the error screenshot exactly when it fails: a call of
    [check_available_appointments] that returns a list has taken no
    screenshot, and a call that raises has taken exactly one, always to the
    same path [error_screenshot.png]. *)
Theorem one_screenshot_per_failure (s : SchedulingService W) t d :
  screenshots (emitted (check_available_appointments P t d s)) =
    match res (check_available_appointments P t d s) with
    | Ok _ => []
    | Raise _ => [Screenshot "error_screenshot.png"]
    end.
Proof.
  destruct (state s !! cache_key t d) as [cached|] eqn:K.
  { rewrite (check_hit P _ _ _ _ K). reflexivity. }
  destruct (check_miss_split P _ _ _ K) as (-> & -> & _).
  bind_all E1.
  2:{ now rewrite navigate_screenshots, E1. }
  rewrite screenshots_app, navigate_screenshots, E1. cbn [app].
  bind_all E2.
  2:{ now rewrite select_screenshots, E2. }
  rewrite screenshots_app, select_screenshots, E2. cbn [app].
  bind_all E3.
  2:{ now rewrite date_step_screenshots, E3. }
  rewrite screenshots_app, date_step_screenshots, E3. cbn [app].
  apply get_slots_screenshots.
Qed.

(** X2. The dictionary only grows: whatever a call of
    [check_available_appointments] does, every entry that was cached before
    the call is still cached after it with the same list (nothing is
    evicted, refreshed or overwritten), and [self.url] is unchanged. *)
Theorem cache_only_grows (s : SchedulingService W) t d :
  state s ⊆ state (final (check_available_appointments P t d s))
  ∧ url (final (check_available_appointments P t d s)) = url s.
Proof.
  destruct (state s !! cache_key t d) as [cached|] eqn:K.
  { rewrite (check_hit P _ _ _ _ K). split; reflexivity. }
  destruct (check_miss_split P _ _ _ K) as (_ & _ & _ & -> & ->).
  destruct (keeps_steps P t d s) as [-> ->].
  split; [|reflexivity].
  destruct (res _); [|reflexivity].
  now apply insert_subseteq.
Qed.

(** X3. The flow keeps the dictionary well formed: if every cached list has
    at most five slots and sits under a recognized appointment type, this
    still holds after any call of [check_available_appointments], whether
    it hits, misses, succeeds or fails.  The empty dictionary of a new
    object is well formed. *)
Theorem cache_stays_well_formed (s : SchedulingService W) t d :
  cache_ok (state s) →
  cache_ok (state (final (check_available_appointments P t d s))).
Proof.
  intros Hok.
  destruct (res (check_available_appointments P t d s)) as [sl|e] eqn:H.
  2:{ now rewrite (check_raise_state P _ _ _ _ H). }
  destruct (state s !! cache_key t d) as [cached|] eqn:K.
  { now rewrite (check_hit P _ _ _ _ K). }
  destruct (check_miss_ok_inv P _ _ _ _ K H) as (_ & E2 & _ & E4 & _).
  destruct (check_ok_stores P _ _ _ _ H) as (_ & Hk & Hother).
  intros t' d' cached Hc.
  destruct (decide (cache_key t' d' = cache_key t d)) as [Heq|Hne].
  - rewrite Heq, Hk in Hc. injection Hc as <-. injection Heq as -> ->.
    split; [apply (select_ok_trace P _ _ E2) | apply (get_slots_length P _ _ E4)].
  - rewrite (Hother _ Hne) in Hc. now apply Hok in Hc.
Qed.

(** X4. On an object whose dictionary is well formed (in particular a new
    one), hit or miss: every list that [check_available_appointments]
    returns has at most five slots and was asked for a recognized type; so a
    query for an unrecognized type always raises. *)
Theorem only_recognized_types_return (s : SchedulingService W) t d :
  cache_ok (state s) →
  (∀ available_slots,
     res (check_available_appointments P t d s) = Ok available_slots →
     recognized t ∧ (length available_slots ≤ 5)%nat)
  ∧ (¬ recognized t → ∃ e, res (check_available_appointments P t d s) = Raise e).
Proof.
  intros Hok.
  assert (∀ sl, res (check_available_appointments P t d s) = Ok sl →
                recognized t ∧ (length sl ≤ 5)%nat) as Hret.
  { intros sl H. destruct (state s !! cache_key t d) as [cached|] eqn:K.
    - rewrite (check_hit P _ _ _ _ K) in H. injection H as <-. now apply (Hok t d).
    - destruct (check_miss_ok_inv P _ _ _ _ K H) as (_ & E2 & _ & E4 & _).
      split; [apply (select_ok_trace P _ _ E2) | apply (get_slots_length P _ _ E4)]. }
  split; [exact Hret|].
  intros Hn. destruct (res (check_available_appointments P t d s)) as [sl|e] eqn:H.
  - destruct (Hret sl eq_refl) as [Hr _]. contradiction.
  - eauto.
Qed.

(** X5. The order of the flow: a miss that succeeds has called, in this
    order and nothing else, [goto] on [self.url], the wait for the load
    state, the click on the text of the appointment type (a recognized one),
    the click on the text of the date when the date preference is truthy,
    the wait for the slot selector with its 10 second timeout, the query,
    and the two text reads for each of the first five handles that this
    query returned; it returns one slot for each of these handles. *)
Theorem successful_query_page_calls (s : SchedulingService W) t d available_slots :
  state s !! cache_key t d = None →
  res (check_available_appointments P t d s) = Ok available_slots →
  let s3 := final ((if truthy d then set_date_preference P d else ret tt)
                     (final (select_appointment_type_direct_click P t
                        (final (navigate_to_scheduling_page P s))))) in
  let q := query_selector_all P ".time-slot"
             (snd (wait_for_selector P ".time-slot" 10000 (page s3))) in
  recognized t
  ∧ ∃ slots,
      fst q = Ok slots
      ∧ page_calls (emitted (check_available_appointments P t d s)) =
          [Goto (url s); WaitForLoadState "networkidle"; Click (text_selector t)]
          ++ (if truthy d then [Click (text_selector (format d))] else [])
          ++ WaitForSelector ".time-slot" 10000 :: QuerySelectorAll ".time-slot"
             :: loop_calls (take 5 slots)
      ∧ Forall2 (λ slot sl, read_as P slot sl) (take 5 slots) available_slots
      ∧ length available_slots = length (take 5 slots).
Proof.
  intros K H s3 q.
  destruct (miss_ok_page_calls P _ _ _ _ K H) as (Hrec & slots & Hq & Hcalls & HF).
  split; [exact Hrec|]. exists slots.
  repeat split; auto. symmetry. apply (Forall2_length _ _ _ HF).
Qed.

(** X6. A failed [goto] ends the query at once: on a miss, when [goto]
    raises, the only other page call of the whole query is the error
    screenshot (no wait for the load state, no click, no scrape); the caller
    gets the error of [goto] when the screenshot succeeds, and the
    dictionary is unchanged. *)
Theorem goto_failure_stops_query (s : SchedulingService W) t d e :
  state s !! cache_key t d = None →
  fst (goto P (url s) (page s)) = Raise e →
  let w1 := snd (goto P (url s) (page s)) in
  let o := check_available_appointments P t d s in
  page_calls (emitted o) = [Goto (url s); Screenshot "error_screenshot.png"]
  ∧ res o = match fst (screenshot P "error_screenshot.png" w1) with
            | Ok _ => Raise e
            | Raise e' => Raise e'
            end
  ∧ page (final o) = snd (screenshot P "error_screenshot.png" w1)
  ∧ state (final o) = state s.
Proof.
  intros K H w1 o.
  assert (navigate_try P (url s) s =
            Out (Raise e) (mkService (url s) w1 (state s)) [Goto (url s)]) as Htry.
  { unfold navigate_try, page_goto. rewrite bind_call, H. reflexivity. }
  assert (navigate_to_scheduling_page P s =
            Out (match fst (screenshot P "error_screenshot.png" w1) with
                 | Ok _ => Raise e
                 | Raise e' => Raise e'
                 end)
                (mkService (url s) (snd (screenshot P "error_screenshot.png" w1)) (state s))
                [Log INFO (MsgNavigating (url s)); Goto (url s);
                 Log ERROR (MsgErrorNavigating e); Screenshot "error_screenshot.png"])
    as Hnav.
  { rewrite navigate_run. cbv zeta.
    rewrite (try_on_error P _ _ _ e) by now rewrite Htry.
    rewrite Htry. reflexivity. }
  subst o. rewrite (check_miss P _ _ _ K).
  destruct (fst (screenshot P "error_screenshot.png" w1)) as [[]|e'] eqn:Esh.
  - rewrite (bind_raise _ _ _ e) by now rewrite Hnav.
    rewrite Hnav. repeat split.
  - rewrite (bind_raise _ _ _ e') by now rewrite Hnav.
    rewrite Hnav. repeat split.
Qed.

(** X7. No slot within the timeout is an error, not an empty result: when
    the wait for the slot selector raises, [get_available_slots] never
    queries the page; it takes the screenshot and raises (the error of the
    wait when the screenshot succeeds). *)
Theorem wait_failure_is_an_error (s : SchedulingService W) e :
  fst (wait_for_selector P ".time-slot" 10000 (page s)) = Raise e →
  let w1 := snd (wait_for_selector P ".time-slot" 10000 (page s)) in
  let o := get_available_slots P s in
  page_calls (emitted o) =
    [WaitForSelector ".time-slot" 10000; Screenshot "error_screenshot.png"]
  ∧ res o = match fst (screenshot P "error_screenshot.png" w1) with
            | Ok _ => Raise e
            | Raise e' => Raise e'
            end.
Proof.
  intros H w1 o.
  assert (slots_try P s =
            Out (Raise e) (mkService (url s) w1 (state s))
                [WaitForSelector ".time-slot" 10000]) as Htry.
  { rewrite slots_try_run. cbv zeta. now rewrite H. }
  subst o. rewrite get_slots_run. cbv zeta.
  rewrite (try_on_error P _ _ _ e) by now rewrite Htry.
  rewrite Htry. split; reflexivity.
Qed.

(** X8. A date label that cannot be read fails the whole scrape: when the
    query finds at least one slot and the text of the first one is read, but
    the read of the date label raises, [get_available_slots] reads nothing
    more, takes the screenshot and raises; the time already read is not
    returned. *)
Theorem unreadable_date_label_fails_scrape
    (s : SchedulingService W) slot rest time_text e :
  let r1 := wait_for_selector P ".time-slot" 10000 (page s) in
  let r2 := query_selector_all P ".time-slot" (snd r1) in
  let r3 := inner_text P slot (snd r2) in
  let r4 := locator_inner_text P ".selected-date" (snd r3) in
  fst r1 = Ok tt →
  fst r2 = Ok (slot :: rest) →
  fst r3 = Ok time_text →
  fst r4 = Raise e →
  let o := get_available_slots P s in
  page_calls (emitted o) =
    [WaitForSelector ".time-slot" 10000; QuerySelectorAll ".time-slot";
     InnerText slot; LocatorInnerText ".selected-date";
     Screenshot "error_screenshot.png"]
  ∧ res o = match fst (screenshot P "error_screenshot.png" (snd r4)) with
            | Ok _ => Raise e
            | Raise e' => Raise e'
            end.
Proof.
  intros r1 r2 r3 r4 E1 E2 E3 E4 o.
  assert (slots_try P s =
            Out (Raise e) (mkService (url s) (snd r4) (state s))
                [WaitForSelector ".time-slot" 10000; QuerySelectorAll ".time-slot";
                 InnerText slot; LocatorInnerText ".selected-date"]) as Htry.
  { rewrite slots_try_run. cbv zeta. fold r1. rewrite E1. fold r2. rewrite E2.
    change (take 5 (slot :: rest)) with (slot :: take 4 rest).
    rewrite for_slot_cons. cbv zeta. cbn [page url state].
    fold r3. rewrite E3. fold r4. rewrite E4. reflexivity. }
  subst o. rewrite get_slots_run. cbv zeta.
  rewrite (try_on_error P _ _ _ e) by now rewrite Htry.
  rewrite Htry. split; reflexivity.
Qed.

(** X9. [select_appointment_type_direct_click] succeeds exactly for a
    recognized appointment type whose click succeeds; for a recognized type
    the one element it clicks is the one whose text is the type itself, and
    the screenshot follows only if that click raises. *)
Theorem select_clicks_its_own_label (s : SchedulingService W) t :
  (res (select_appointment_type_direct_click P t s) = Ok tt
   ↔ recognized t ∧ fst (click P (text_selector t) (page s)) = Ok tt)
  ∧ (recognized t →
     page_calls (emitted (select_appointment_type_direct_click P t s)) =
       Click (text_selector t)
         :: match fst (click P (text_selector t) (page s)) with
            | Ok _ => []
            | Raise _ => [Screenshot "error_screenshot.png"]
            end).
Proof.
  assert (recognized t →
          select_try P t s =
            match fst (click P (text_selector t) (page s)) with
            | Ok _ =>
                Out (Ok tt)
                    (mkService (url s) (snd (click P (text_selector t) (page s))) (state s))
                    [Click (text_selector t); Log INFO (MsgTypeSelected t)]
            | Raise e =>
                Out (Raise e)
                    (mkService (url s) (snd (click P (text_selector t) (page s))) (state s))
                    [Click (text_selector t)]
            end) as Htry.
  { intros Hrec. unfold select_try, page_click.
    destruct Hrec as [-> | [-> | ->]]; repeat case_decide; try congruence;
      rewrite bind_call; destruct (fst (click P _ _)); reflexivity. }
  split; [split|].
  - intros H. destruct (select_ok_trace P _ _ H) as [Hrec _].
    split; [exact Hrec|].
    specialize (Htry Hrec). revert H. rewrite select_run. cbv zeta. cbn [res].
    destruct (fst (click P (text_selector t) (page s))) as [[]|e]; [reflexivity|].
    rewrite (try_on_error P _ _ _ e) by now rewrite Htry.
    cbn [res]. destruct (fst (screenshot P _ _)); discriminate.
  - intros [Hrec Hc]. now apply select_ok_intro.
  - intros Hrec. specialize (Htry Hrec). rewrite select_run. cbv zeta. cbn [emitted].
    destruct (fst (click P (text_selector t) (page s))) as [[]|e].
    + rewrite (try_ok _ _ _ tt) by now rewrite Htry.
      rewrite Htry. reflexivity.
    + rewrite (try_on_error P _ _ _ e) by now rewrite Htry.
      rewrite Htry. reflexivity.
Qed.

(** X10. [set_date_preference] touches the page only for a truthy date: for
    [None] and for the empty string it calls nothing; otherwise it clicks
    the element whose text is the date string, once, and takes the
    screenshot only if that click raises.  It succeeds exactly when there
    was nothing to click or the click succeeded. *)
Theorem date_step_page_calls (s : SchedulingService W) d :
  page_calls (emitted (set_date_preference P d s)) =
    (if truthy d then
       Click (text_selector (format d))
         :: match fst (click P (text_selector (format d)) (page s)) with
            | Ok _ => []
            | Raise _ => [Screenshot "error_screenshot.png"]
            end
     else [])
  ∧ (res (set_date_preference P d s) = Ok tt
     ↔ (truthy d = true → fst (click P (text_selector (format d)) (page s)) = Ok tt)).
Proof.
  destruct (truthy d) eqn:Td.
  2:{ rewrite (set_date_falsy P d s Td). split; [reflexivity|].
      split; [discriminate | reflexivity]. }
  assert (date_try P d s =
            match fst (click P (text_selector (format d)) (page s)) with
            | Ok _ =>
                Out (Ok tt)
                    (mkService (url s)
                       (snd (click P (text_selector (format d)) (page s))) (state s))
                    [Click (text_selector (format d)); Log INFO (MsgDateSelected d)]
            | Raise e =>
                Out (Raise e)
                    (mkService (url s)
                       (snd (click P (text_selector (format d)) (page s))) (state s))
                    [Click (text_selector (format d))]
            end) as Htry.
  { unfold date_try, page_click. rewrite bind_call.
    destruct (fst (click P _ _)); reflexivity. }
  rewrite (set_date_run P d s Td). cbv zeta. cbn [res emitted].
  destruct (fst (click P (text_selector (format d)) (page s))) as [[]|e].
  - rewrite (try_ok _ _ _ tt) by now rewrite Htry.
    rewrite Htry. split; [reflexivity|]. split; auto.
  - rewrite (try_on_error P _ _ _ e) by now rewrite Htry.
    rewrite Htry. split; [reflexivity|]. cbn [res].
    split; [destruct (fst (screenshot P _ _)); discriminate|].
    intros H. specialize (H eq_refl). discriminate.
Qed.

End FlowProperties.

(** ** The life cycle, step by step *)

Section LifeSteps.
Context {W : Type} (P : Page W) (D : Driver W).
Local Open Scope life_scope.

(** The object after a driver call has moved the world to [w], with the
    flag [b]. *)
Local Abbreviation moved x w b :=
  (mkClient (mkService (url (service x)) w (state (service x))) b).

Lemma life_bind_ok {A B} (m : L W A) (k : A → L W B) x a :
  life_res (m x) = Ok a →
  life_bind m k x =
    LifeOut (life_res (k a (life_final (m x)))) (life_final (k a (life_final (m x))))
            (life_emitted (m x) ++ life_emitted (k a (life_final (m x)))).
Proof. unfold life_bind. destruct (m x) as [[?|?] ? ?]; simpl; congruence. Qed.

Lemma life_bind_raise {A B} (m : L W A) (k : A → L W B) x e :
  life_res (m x) = Raise e →
  life_bind m k x = LifeOut (Raise e) (life_final (m x)) (life_emitted (m x)).
Proof. unfold life_bind. destruct (m x) as [[?|?] ? ?]; simpl; congruence. Qed.

Lemma try_finally_run {A} (body : L W A) (cleanup : L W unit) x :
  try_finally body cleanup x =
    let o := body x in
    let c := cleanup (life_final o) in
    LifeOut (match life_res c with
             | Ok _ => life_res o
             | Raise e => Raise e
             end)
            (life_final c) (life_emitted o ++ life_emitted c).
Proof.
  unfold try_finally. destruct (body x) as [r x1 evs1]. simpl.
  destruct (cleanup x1) as [[[]|e] x2 evs2]; reflexivity.
Qed.

(** [close_browser] on an object that is already closed. *)
Lemma close_browser_closed x :
  closed x = true →
  close_browser D x = LifeOut (Ok tt) x [LifeLog INFO MsgClosing].
Proof.
  intros H. unfold close_browser, life_bind, life_logger, get_closed. simpl.
  rewrite H. reflexivity.
Qed.

(** [close_browser] on an open object, call by call. *)
Lemma close_browser_open x :
  closed x = false →
  close_browser D x =
    let r1 := page_close D (page (service x)) in
    let r2 := context_close D (snd r1) in
    let r3 := browser_close D (snd r2) in
    let r4 := stop D (snd r3) in
    match fst r1 with
    | Raise e => LifeOut (Raise e) (moved x (snd r1) false)
                   [LifeLog INFO MsgClosing; PageClose]
    | Ok _ =>
    match fst r2 with
    | Raise e => LifeOut (Raise e) (moved x (snd r2) false)
                   [LifeLog INFO MsgClosing; PageClose; ContextClose]
    | Ok _ =>
    match fst r3 with
    | Raise e => LifeOut (Raise e) (moved x (snd r3) false)
                   [LifeLog INFO MsgClosing; PageClose; ContextClose; BrowserClose]
    | Ok _ =>
    match fst r4 with
    | Raise e => LifeOut (Raise e) (moved x (snd r4) false)
                   [LifeLog INFO MsgClosing; PageClose; ContextClose; BrowserClose; Stop]
    | Ok _ => LifeOut (Ok tt) (moved x (snd r4) true)
                [LifeLog INFO MsgClosing; PageClose; ContextClose; BrowserClose; Stop;
                 LifeLog INFO MsgClosed]
    end end end end.
Proof.
  intros H.
  unfold close_browser, life_bind, life_logger, get_closed, drive, set_closed. simpl.
  rewrite H. simpl.
  destruct (fst (page_close D (page (service x)))); simpl; rewrite ?H; [|reflexivity].
  destruct (fst (context_close D _)); simpl; rewrite ?H; [|reflexivity].
  destruct (fst (browser_close D _)); simpl; rewrite ?H; [|reflexivity].
  destruct (fst (stop D _)); simpl; rewrite ?H; reflexivity.
Qed.

(** [initialize_browser], call by call. *)
Lemma initialize_browser_run headless x :
  initialize_browser D headless x =
    let r1 := start D (page (service x)) in
    let r2 := launch D headless (snd r1) in
    let r3 := new_context D (snd r2) in
    let r4 := new_page D (snd r3) in
    match fst r1 with
    | Raise e => LifeOut (Raise e) (moved x (snd r1) (closed x))
                   [LifeLog INFO MsgInitializing; Start]
    | Ok _ =>
    match fst r2 with
    | Raise e => LifeOut (Raise e) (moved x (snd r2) (closed x))
                   [LifeLog INFO MsgInitializing; Start; Launch headless]
    | Ok _ =>
    match fst r3 with
    | Raise e => LifeOut (Raise e) (moved x (snd r3) (closed x))
                   [LifeLog INFO MsgInitializing; Start; Launch headless; NewContext]
    | Ok _ =>
    match fst r4 with
    | Raise e => LifeOut (Raise e) (moved x (snd r4) (closed x))
                   [LifeLog INFO MsgInitializing; Start; Launch headless; NewContext;
                    NewPage]
    | Ok _ => LifeOut (Ok tt) (moved x (snd r4) false)
                [LifeLog INFO MsgInitializing; Start; Launch headless; NewContext;
                 NewPage; LifeLog INFO MsgInitialized]
    end end end end.
Proof.
  unfold initialize_browser, life_bind, life_logger, drive, set_closed. simpl.
  destruct (fst (start D (page (service x)))); simpl; [|reflexivity].
  destruct (fst (launch D headless _)); simpl; [|reflexivity].
  destruct (fst (new_context D _)); simpl; [|reflexivity].
  destruct (fst (new_page D _)); reflexivity.
Qed.

(** What a successful start leaves. *)
Lemma initialize_ok_inv headless x :
  life_res (initialize_browser D headless x) = Ok tt →
  closed (life_final (initialize_browser D headless x)) = false
  ∧ state (service (life_final (initialize_browser D headless x))) = state (service x)
  ∧ url (service (life_final (initialize_browser D headless x))) = url (service x).
Proof.
  rewrite initialize_browser_run. cbv zeta.
  destruct (fst (start D _)); [|discriminate].
  destruct (fst (launch D headless _)); [|discriminate].
  destruct (fst (new_context D _)); [|discriminate].
  destruct (fst (new_page D _)); [|discriminate].
  intros _. repeat split.
Qed.

End LifeSteps.

(** ** The life cycle *)

Section LifeProperties.
Context {W : Type} (P : Page W) (D : Driver W).

(** X11. [close_browser] is idempotent: once it has returned, the object is
    marked closed, and a further call only writes the "Closing the browser"
    log record: it calls no driver method and changes nothing. *)
Theorem close_browser_idempotent (x : Client W) :
  life_res (close_browser D x) = Ok tt →
  let x1 := life_final (close_browser D x) in
  closed x1 = true
  ∧ close_browser D x1 = LifeOut (Ok tt) x1 [LifeLog INFO MsgClosing].
Proof.
  destruct (closed x) eqn:C.
  - rewrite (close_browser_closed D x C). cbn [life_res life_final].
    intros _. split; [exact C | apply close_browser_closed, C].
  - rewrite (close_browser_open D x C). cbv zeta.
    destruct (fst (page_close D _)); [|discriminate].
    destruct (fst (context_close D _)); [|discriminate].
    destruct (fst (browser_close D _)); [|discriminate].
    destruct (fst (stop D _)); [|discriminate].
    cbn [life_res life_final]. intros _.
    split; [reflexivity | now apply close_browser_closed].
Qed.

(** X12. Closing an open object releases in a fixed order: when
    [close_browser] returns on an object that is not closed, it has called
    [page.close], [context.close], [browser.close] and [playwright.stop], in
    this order and each once, the object is marked closed, and the
    dictionary and the address are untouched. *)
Theorem close_releases_in_order (x : Client W) :
  closed x = false →
  life_res (close_browser D x) = Ok tt →
  let x1 := life_final (close_browser D x) in
  driver_calls (life_emitted (close_browser D x)) =
    [PageClose; ContextClose; BrowserClose; Stop]
  ∧ closed x1 = true
  ∧ state (service x1) = state (service x)
  ∧ url (service x1) = url (service x).
Proof.
  intros C. rewrite (close_browser_open D x C). cbv zeta.
  destruct (fst (page_close D _)); [|discriminate].
  destruct (fst (context_close D _)); [|discriminate].
  destruct (fst (browser_close D _)); [|discriminate].
  destruct (fst (stop D _)); [|discriminate].
  intros _. repeat split.
Qed.

(** X13. A release call that raises leaves the object open: when
    [close_browser] raises, the object was not closed and is still not
    marked closed; the release calls made are an initial part of the
    sequence [page.close], [context.close], [browser.close],
    [playwright.stop] (those after the failing one are skipped); and the
    dictionary is untouched. *)
Theorem close_failure_keeps_open (x : Client W) e :
  life_res (close_browser D x) = Raise e →
  let x1 := life_final (close_browser D x) in
  closed x = false
  ∧ closed x1 = false
  ∧ driver_calls (life_emitted (close_browser D x))
      `prefix_of` [PageClose; ContextClose; BrowserClose; Stop]
  ∧ state (service x1) = state (service x).
Proof.
  destruct (closed x) eqn:C.
  { rewrite (close_browser_closed D x C). discriminate. }
  rewrite (close_browser_open D x C). cbv zeta.
  destruct (fst (page_close D _)).
  2:{ intros _. repeat split. now exists [ContextClose; BrowserClose; Stop]. }
  destruct (fst (context_close D _)).
  2:{ intros _. repeat split. now exists [BrowserClose; Stop]. }
  destruct (fst (browser_close D _)).
  2:{ intros _. repeat split. now exists [Stop]. }
  destruct (fst (stop D _)); [discriminate|].
  intros _. repeat split. now exists [].
Qed.

(** X14. A failed start is never released: when [initialize_browser] raises,
    the flag [self.closed] is what it was, whatever was already started; so
    on a new object, which is marked closed, the [close_browser] that
    follows calls no driver method at all. *)
Theorem failed_initialize_is_not_released (x : Client W) headless e :
  life_res (initialize_browser D headless x) = Raise e →
  let x1 := life_final (initialize_browser D headless x) in
  closed x1 = closed x
  ∧ driver_calls (life_emitted (initialize_browser D headless x))
      `prefix_of` [Start; Launch headless; NewContext; NewPage]
  ∧ (closed x = true →
     close_browser D x1 = LifeOut (Ok tt) x1 [LifeLog INFO MsgClosing]).
Proof.
  rewrite initialize_browser_run. cbv zeta.
  destruct (fst (start D _)).
  2:{ intros _. repeat split.
      - now exists [Launch headless; NewContext; NewPage].
      - intros C. now apply close_browser_closed. }
  destruct (fst (launch D headless _)).
  2:{ intros _. repeat split.
      - now exists [NewContext; NewPage].
      - intros C. now apply close_browser_closed. }
  destruct (fst (new_context D _)).
  2:{ intros _. repeat split.
      - now exists [NewPage].
      - intros C. now apply close_browser_closed. }
  destruct (fst (new_page D _)); [discriminate|].
  intros _. repeat split.
  - now exists [].
  - intros C. now apply close_browser_closed.
Qed.

(** X15. Start and release, round trip: when [initialize_browser] returns, it
    has called [start], [launch] with the given [headless], [new_context]
    and [new_page], in this order; the object is marked open whatever it was
    before; the dictionary and the address are untouched; and a
    [close_browser] that then returns marks it closed again, with the
    dictionary still untouched. *)
Theorem initialize_then_close (x : Client W) headless :
  life_res (initialize_browser D headless x) = Ok tt →
  let x1 := life_final (initialize_browser D headless x) in
  driver_calls (life_emitted (initialize_browser D headless x)) =
    [Start; Launch headless; NewContext; NewPage]
  ∧ closed x1 = false
  ∧ state (service x1) = state (service x)
  ∧ url (service x1) = url (service x)
  ∧ (life_res (close_browser D x1) = Ok tt →
     closed (life_final (close_browser D x1)) = true
     ∧ state (service (life_final (close_browser D x1))) = state (service x)).
Proof.
  rewrite initialize_browser_run. cbv zeta.
  destruct (fst (start D _)); [|discriminate].
  destruct (fst (launch D headless _)); [|discriminate].
  destruct (fst (new_context D _)); [|discriminate].
  destruct (fst (new_page D _)); [|discriminate].
  intros _. cbn [life_final life_emitted].
  split; [reflexivity|]. split; [reflexivity|]. split; [reflexivity|].
  split; [reflexivity|].
  rewrite close_browser_open by reflexivity. cbv zeta.
  destruct (fst (page_close D _)); [|discriminate].
  destruct (fst (context_close D _)); [|discriminate].
  destruct (fst (browser_close D _)); [|discriminate].
  destruct (fst (stop D _)); [|discriminate].
  intros _. split; reflexivity.
Qed.

(** X16. [main] always closes what it has opened: once the browser is
    started, the query for a new appointment with no date preference runs
    once, on an empty dictionary (so it begins with the navigation to the
    address of [main]); its list is logged when it returns; then, whether
    the query returned or raised, [close_browser] runs on the open object,
    beginning with [page.close].  [main] raises the error of
    [close_browser] when that raises, and otherwise the error of the query,
    if any. *)
Theorem main_always_closes (w : W) :
  let i := initialize_browser D true (new_client main_url w) in
  life_res i = Ok tt →
  let q := check_available_appointments P "New appointment" None
             (service (life_final i)) in
  let c := close_browser D (mkClient (final q) false) in
  life_emitted (main P D w) =
    life_emitted i ++ map Flow (emitted q)
    ++ match res q with
       | Ok available_slots => [LifeLog INFO (MsgAvailableSlots available_slots)]
       | Raise _ => []
       end
    ++ life_emitted c
  ∧ life_res (main P D w) =
      match life_res c with
      | Raise e' => Raise e'
      | Ok _ => match res q with
                | Ok _ => Ok tt
                | Raise e => Raise e
                end
      end
  ∧ (∃ rest, emitted q = Log INFO (MsgNavigating main_url) :: Goto main_url :: rest)
  ∧ (∃ rest, life_emitted c = LifeLog INFO MsgClosing :: PageClose :: rest).
Proof.
  intros i Hi q c.
  destruct (initialize_ok_inv D true (new_client main_url w) Hi)
    as (Hc & Hs & Hu). fold i in Hc, Hs, Hu.
  assert (main_try P D (new_client main_url w) =
            LifeOut (match res q with
                     | Ok _ => Ok tt
                     | Raise e => Raise e
                     end)
                    (mkClient (final q) false)
                    (life_emitted i ++ map Flow (emitted q)
                     ++ match res q with
                        | Ok sl => [LifeLog INFO (MsgAvailableSlots sl)]
                        | Raise _ => []
                        end)) as Htry.
  { unfold main_try. rewrite (life_bind_ok _ _ _ _ Hi). fold i.
    unfold life_bind, lift, life_logger. fold q. rewrite Hc.
    destruct q as [[sl|e] s2 evs]; cbn; now rewrite ?app_nil_r. }
  unfold main. rewrite try_finally_run. cbv zeta. rewrite Htry.
  cbn [life_res life_final life_emitted]. fold c.
  split; [now rewrite <- !app_assoc|]. split; [reflexivity|]. split.
  - assert (state (service (life_final i)) !! cache_key "New appointment" None = None)
      as K by now rewrite Hs.
    destruct (check_miss_starts P _ _ _ K) as [rest Hrest].
    fold q in Hrest. rewrite Hu in Hrest. eauto.
  - subst c. rewrite close_browser_open by reflexivity. cbv zeta.
    destruct (fst (page_close D _)); [|eauto].
    destruct (fst (context_close D _)); [|eauto].
    destruct (fst (browser_close D _)); [|eauto].
    destruct (fst (stop D _)); eauto.
Qed.

(** X17. [main] does not release a browser that failed to start: when
    [initialize_browser] raises in [main], the query is never attempted,
    the [close_browser] of the [finally] suite finds the object marked
    closed and only writes its first log record, so no release call is made
    for what had been started ([playwright.stop] is never called), and
    [main] raises the error of the start. *)
Theorem main_leaks_failed_start (w : W) e :
  let i := initialize_browser D true (new_client main_url w) in
  life_res i = Raise e →
  life_res (main P D w) = Raise e
  ∧ life_emitted (main P D w) = life_emitted i ++ [LifeLog INFO MsgClosing]
  ∧ driver_calls (life_emitted (main P D w))
      `prefix_of` [Start; Launch true; NewContext; NewPage].
Proof.
  intros i Hi.
  assert (closed (life_final i) = true ∧
          driver_calls (life_emitted i ++ [LifeLog INFO MsgClosing])
            `prefix_of` [Start; Launch true; NewContext; NewPage]) as [Hc Hp].
  { revert Hi. subst i. rewrite initialize_browser_run. cbv zeta.
    destruct (fst (start D _)).
    2:{ intros _. split; [reflexivity|].
        now exists [Launch true; NewContext; NewPage]. }
    destruct (fst (launch D true _)).
    2:{ intros _. split; [reflexivity|]. now exists [NewContext; NewPage]. }
    destruct (fst (new_context D _)).
    2:{ intros _. split; [reflexivity|]. now exists [NewPage]. }
    destruct (fst (new_page D _)); [discriminate|].
    intros _. split; [reflexivity|]. now exists []. }
  unfold main. rewrite try_finally_run. cbv zeta.
  unfold main_try. rewrite (life_bind_raise _ _ _ _ Hi). fold i.
  cbn [life_res life_final life_emitted].
  rewrite (close_browser_closed D _ Hc). cbn [life_res life_emitted].
  repeat split. exact Hp.
Qed.

End LifeProperties.

(** ** The further properties on the simulated pages *)

Lemma cache_stays_well_formed_witness :
  cache_ok (state (final (check_available_appointments (Sim.sim_page Sim.busy_site)
                            "Emergency appointment" (Some "15") Sim.fresh))).
Proof.
  apply (cache_stays_well_formed (Sim.sim_page Sim.busy_site) Sim.fresh).
  intros t d cached H. simpl in H. rewrite lookup_empty in H. discriminate.
Defined.

Lemma only_recognized_types_return_witness :
  ∃ e, res (check_available_appointments (Sim.sim_page Sim.example_site)
              "Root canal" None Sim.fresh) = Raise e.
Proof.
  assert (cache_ok (state Sim.fresh)) as Hok.
  { intros t d cached H. simpl in H. rewrite lookup_empty in H. discriminate. }
  apply (only_recognized_types_return (Sim.sim_page Sim.example_site) Sim.fresh
           "Root canal" None Hok).
  intros [H | [H | H]]; discriminate H.
Defined.

Lemma successful_query_page_calls_witness :
  page_calls (emitted (check_available_appointments (Sim.sim_page Sim.busy_site)
                         "Emergency appointment" (Some "15") Sim.fresh)) =
    [Goto Sim.site_url; WaitForLoadState "networkidle";
     Click (text_selector "Emergency appointment")]
    ++ [Click (text_selector "15")]
    ++ WaitForSelector ".time-slot" 10000 :: QuerySelectorAll ".time-slot"
       :: loop_calls (take 5 (seq 0 7)).
Proof.
  destruct (successful_query_page_calls (Sim.sim_page Sim.busy_site) Sim.fresh
              "Emergency appointment" (Some "15")
              [mkSlot "Oct 10, 2025" "8:00 AM"; mkSlot "Oct 10, 2025" "8:30 AM";
               mkSlot "Oct 10, 2025" "9:00 AM"; mkSlot "Oct 10, 2025" "9:30 AM";
               mkSlot "Oct 10, 2025" "10:00 AM"] eq_refl eq_refl)
    as (_ & slots & Hq & H & _).
  injection Hq as <-. exact H.
Defined.

Lemma goto_failure_stops_query_witness :
  page_calls (emitted (check_available_appointments (Sim.sim_page Sim.offline_site)
                         "New appointment" None Sim.fresh)) =
    [Goto Sim.site_url; Screenshot "error_screenshot.png"].
Proof.
  apply (goto_failure_stops_query (Sim.sim_page Sim.offline_site) Sim.fresh
           "New appointment" None
           (PlaywrightError "net::ERR_INTERNET_DISCONNECTED") eq_refl eq_refl).
Defined.

Lemma wait_failure_is_an_error_witness :
  res (get_available_slots (Sim.sim_page SimDriver.slow_site) Sim.fresh) =
    Raise (PlaywrightTimeoutError "Timeout 10000ms exceeded.").
Proof.
  apply (wait_failure_is_an_error (Sim.sim_page SimDriver.slow_site) Sim.fresh
           (PlaywrightTimeoutError "Timeout 10000ms exceeded.") eq_refl).
Defined.

Lemma unreadable_date_label_fails_scrape_witness :
  res (get_available_slots (Sim.sim_page SimDriver.unlabelled_site) Sim.fresh) =
    Raise (PlaywrightTimeoutError "Timeout 30000ms exceeded.").
Proof.
  apply (unreadable_date_label_fails_scrape (Sim.sim_page SimDriver.unlabelled_site)
           Sim.fresh 0%nat [] "9:00 AM"
           (PlaywrightTimeoutError "Timeout 30000ms exceeded.")
           eq_refl eq_refl eq_refl eq_refl).
Defined.

Lemma close_browser_idempotent_witness :
  let D := SimDriver.sim_driver SimDriver.sound in
  let x1 := life_final (close_browser D SimDriver.open_client) in
  closed x1 = true
  ∧ close_browser D x1 = LifeOut (Ok tt) x1 [LifeLog INFO MsgClosing].
Proof.
  apply (close_browser_idempotent (SimDriver.sim_driver SimDriver.sound)
           SimDriver.open_client eq_refl).
Defined.

Lemma close_releases_in_order_witness :
  driver_calls (life_emitted (close_browser (SimDriver.sim_driver SimDriver.sound)
                                SimDriver.open_client)) =
    [PageClose; ContextClose; BrowserClose; Stop].
Proof.
  apply (close_releases_in_order (SimDriver.sim_driver SimDriver.sound)
           SimDriver.open_client eq_refl eq_refl).
Defined.

Lemma close_failure_keeps_open_witness :
  closed (life_final (close_browser (SimDriver.sim_driver SimDriver.stuck_page)
                        SimDriver.open_client)) = false.
Proof.
  apply (close_failure_keeps_open (SimDriver.sim_driver SimDriver.stuck_page)
           SimDriver.open_client
           (PlaywrightError "Target page, context or browser has been closed") eq_refl).
Defined.

Lemma failed_initialize_is_not_released_witness :
  let D := SimDriver.sim_driver SimDriver.no_browser in
  let x1 := life_final (initialize_browser D true (new_client Sim.site_url 0%nat)) in
  close_browser D x1 = LifeOut (Ok tt) x1 [LifeLog INFO MsgClosing].
Proof.
  apply (failed_initialize_is_not_released (SimDriver.sim_driver SimDriver.no_browser)
           (new_client Sim.site_url 0%nat) true
           (PlaywrightError "Executable doesn't exist") eq_refl).
  reflexivity.
Defined.

Lemma initialize_then_close_witness :
  let D := SimDriver.sim_driver SimDriver.sound in
  let x1 := life_final (initialize_browser D true (new_client Sim.site_url 0%nat)) in
  closed x1 = false ∧ closed (life_final (close_browser D x1)) = true.
Proof.
  intros D x1.
  destruct (initialize_then_close D (new_client Sim.site_url 0%nat) true eq_refl)
    as (_ & H2 & _ & _ & H5).
  split; [exact H2|]. apply H5. reflexivity.
Defined.

Lemma main_always_closes_witness :
  life_res (main (Sim.sim_page Sim.offline_site)
              (SimDriver.sim_driver SimDriver.sound) 0%nat) =
    Raise (PlaywrightError "net::ERR_INTERNET_DISCONNECTED")
  ∧ driver_calls (life_emitted (main (Sim.sim_page Sim.offline_site)
                                  (SimDriver.sim_driver SimDriver.sound) 0%nat)) =
      [Start; Launch true; NewContext; NewPage;
       PageClose; ContextClose; BrowserClose; Stop].
Proof.
  destruct (main_always_closes (Sim.sim_page Sim.offline_site)
              (SimDriver.sim_driver SimDriver.sound) 0%nat eq_refl)
    as (H1 & H2 & _).
  split.
  - rewrite H2. reflexivity.
  - rewrite H1. reflexivity.
Defined.

Lemma main_leaks_failed_start_witness :
  life_res (main (Sim.sim_page Sim.example_site)
              (SimDriver.sim_driver SimDriver.no_browser) 0%nat) =
    Raise (PlaywrightError "Executable doesn't exist")
  ∧ driver_calls (life_emitted (main (Sim.sim_page Sim.example_site)
                                  (SimDriver.sim_driver SimDriver.no_browser) 0%nat))
      `prefix_of` [Start; Launch true; NewContext; NewPage].
Proof.
  destruct (main_leaks_failed_start (Sim.sim_page Sim.example_site)
              (SimDriver.sim_driver SimDriver.no_browser) 0%nat
              (PlaywrightError "Executable doesn't exist") eq_refl)
    as (H1 & _ & H3).
  split; [exact H1 | exact H3].
Defined.

Lemma select_clicks_its_own_label_witness :
  res (select_appointment_type_direct_click (Sim.sim_page Sim.example_site)
         "Invisalign consultation" Sim.fresh) = Ok tt.
Proof.
  destruct (select_clicks_its_own_label (Sim.sim_page Sim.example_site) Sim.fresh
              "Invisalign consultation") as [[_ H] _].
  apply H. split; [unfold recognized; auto | reflexivity].
Defined.
